(** * Secret reconstruction by Lagrange interpolation and majority vote

    A shallow embedding of [processor.py]: the interpolator
    [lagrange_constant_term] and the consensus phase of [solve_secret],
    over unbounded integers ([Z], whose [/] and [mod] are Python's floor
    division and remainder), with Python's exceptions as an error monad. *)

From Stdlib Require Import ZArith List Lia Bool Permutation SetoidPermutation.
From Stdlib Require Strings.String.
Import ListNotations.
Import String.StringSyntax.

Delimit Scope string_scope with string.

Open Scope Z_scope.

(** ** Exceptions *)

(** One constructor per [raise] site of the source, plus the [IndexError]
    that [points[j]] raises out of range. *)
Inductive error : Type :=
| DuplicateAbscissa    (* ValueError, "Duplicate x-coordinate ..." *)
| ZeroDenominator      (* ValueError, "Denominator ... is zero." *)
| NonIntegerResult     (* ValueError, "... not an exact integer ..." *)
| InvalidParameters    (* ValueError, "Invalid k ... or n ... values ..." *)
| InsufficientShares   (* ValueError, "Not enough valid shares ..." *)
| NoConsistentSecret   (* RuntimeError, "No consistent secret ..." *)
| IndexError.          (* list index out of range *)

Inductive result (A : Type) : Type :=
| Ok (a : A)
| Raise (e : error).

Arguments Ok {A} a.
Arguments Raise {A} e.

Definition bind {A B : Type} (m : result A) (f : A -> result B) : result B :=
  match m with
  | Ok a => f a
  | Raise e => Raise e
  end.

Notation "x <- m ;; k" := (bind m (fun x => k))
  (at level 61, m at next level, right associativity).
Notation "' p <- m ;; k" := (bind m (fun x => let p := x in k))
  (at level 61, p pattern, m at next level, right associativity).

(** ** The interpolator *)

(** A share: the pair [(x, y)]. *)
Definition point : Type := (Z * Z)%type.

(** [points[i]] *)
Definition getitem (points : list point) (i : nat) : result point :=
  match nth_error points i with
  | Some p => Ok p
  | None => Raise IndexError
  end.

(** The inner loop [for m in range(k)] of [lagrange_constant_term], run over
    the remaining indices [ms] from the current values of the two products. *)
Fixpoint basis_loop (points : list point) (j : nat) (xj : Z) (ms : list nat)
    (numerator_product denominator_product : Z) : result (Z * Z) :=
  match ms with
  | [] => Ok (numerator_product, denominator_product)
  | m :: ms' =>
      if Nat.eqb m j then
        basis_loop points j xj ms' numerator_product denominator_product
      else
        '(xm, _) <- getitem points m ;;
        if xj - xm =? 0 then Raise DuplicateAbscissa
        else basis_loop points j xj ms'
               (numerator_product * (- xm)) (denominator_product * (xj - xm))
  end.

(** The outer loop [for j in range(k)], run over the remaining indices [js]
    from the current value of [secret]. *)
Fixpoint term_loop (points : list point) (js : list nat) (secret : Z)
    : result Z :=
  match js with
  | [] => Ok secret
  | j :: js' =>
      '(xj, yj) <- getitem points j ;;
      '(numerator_product, denominator_product) <-
        basis_loop points j xj (seq 0 (length points)) 1 1 ;;
      if denominator_product =? 0 then Raise ZeroDenominator
      else if negb (numerator_product mod denominator_product =? 0) then
        Raise NonIntegerResult
      else
        let lagrange_term := numerator_product / denominator_product in
        term_loop points js' (secret + yj * lagrange_term)
  end.

Definition lagrange_constant_term (points : list point) : result Z :=
  let k := length points in
  term_loop points (seq 0 k) 0.

(** ** The consensus phase of [solve_secret] *)

(** [itertools.combinations(l, k)]: the [k]-element subsequences of [l], in
    lexicographic order of their positions. *)
Fixpoint combinations {A : Type} (l : list A) (k : nat) : list (list A) :=
  match l with
  | [] => match k with O => [[]] | S _ => [] end
  | x :: xs =>
      match k with
      | O => [[]]
      | S k' => map (cons x) (combinations xs k') ++ combinations xs k
      end
  end.

(** A [Counter]: a dict from candidate to count, in insertion order. *)
Definition Counter : Type := list (Z * Z).

(** [c[key] += 1]: a key already present keeps its place, a new key (whose
    missing count reads as 0) goes to the end. *)
Fixpoint counter_incr (key : Z) (c : Counter) : Counter :=
  match c with
  | [] => [(key, 0 + 1)]
  | (key', count) :: rest =>
      if key' =? key then (key', count + 1) :: rest
      else (key', count) :: counter_incr key rest
  end.

(** [max(items, key=count)] seeded with [best]: a later item replaces the
    current one only when its count is strictly larger. *)
Fixpoint max_by_count (best : Z * Z) (items : list (Z * Z)) : Z * Z :=
  match items with
  | [] => best
  | item :: rest =>
      if snd best <? snd item then max_by_count item rest
      else max_by_count best rest
  end.

(** [c.most_common(1)]: the list holding the first item of largest count,
    empty for an empty counter. *)
Definition most_common_1 (c : Counter) : list (Z * Z) :=
  match c with
  | [] => []
  | item :: rest => [max_by_count item rest]
  end.

(** The body of the [for combo in combinations(...)] loop: a successful
    interpolation votes, every exception is swallowed. *)
Definition cast_vote (secret_candidates : Counter) (combo : list point)
    : Counter :=
  match lagrange_constant_term combo with
  | Ok candidate_secret => counter_incr candidate_secret secret_candidates
  | Raise _ => secret_candidates
  end.

Definition tally (processed_shares : list point) (k : nat) : Counter :=
  fold_left cast_vote (combinations processed_shares k) [].

(** [solve_secret] from its parameter check on, given the document's [n] and
    [k] and the shares already resolved to points ([processed_shares], in
    the order of the document). *)
Definition solve_secret (processed_shares : list point) (n k : Z) : result Z :=
  if negb ((1 <=? k) && (k <=? n)) then Raise InvalidParameters
  else if Z.of_nat (length processed_shares) <? k then Raise InsufficientShares
  else
    let secret_candidates := tally processed_shares (Z.to_nat k) in
    match secret_candidates with
    | [] => Raise NoConsistentSecret
    | _ :: _ =>
        match most_common_1 secret_candidates with
        | [] => Raise IndexError
        | (true_secret, _) :: _ => Ok true_secret
        end
    end.

(** ** The closed form of the interpolation

    The sum that the specification gives for the secret estimate, written
    with indexed sums and products rather than loops. *)

Definition prodZ (l : list Z) : Z := fold_right Z.mul 1 l.
Definition sumZ (l : list Z) : Z := fold_right Z.add 0 l.

Definition x_at (points : list point) (m : nat) : Z := fst (nth m points (0, 0)).
Definition y_at (points : list point) (m : nat) : Z := snd (nth m points (0, 0)).

(** The indices [m < k] with [m <> j]. *)
Definition others (k j : nat) : list nat :=
  filter (fun m => negb (Nat.eqb m j)) (seq 0 k).

(** product over [m <> j] of [(- x_m)] *)
Definition numerator (points : list point) (j : nat) : Z :=
  prodZ (map (fun m => - x_at points m) (others (length points) j)).

(** product over [m <> j] of [(x_j - x_m)] *)
Definition denominator (points : list point) (j : nat) : Z :=
  prodZ (map (fun m => x_at points j - x_at points m) (others (length points) j)).

(** sum over [j] of [y_j * (numerator_j / denominator_j)] *)
Definition lagrange_formula (points : list point) : Z :=
  sumZ (map (fun j => y_at points j * (numerator points j / denominator points j))
            (seq 0 (length points))).

(** Two positions of the list hold the same x-coordinate. *)
Definition has_duplicate_abscissa (points : list point) : Prop :=
  exists i j p q, i <> j /\ nth_error points i = Some p /\
                  nth_error points j = Some q /\ fst p = fst q.

(** ** Polynomials with integer coefficients *)

(** [peval [c0; c1; ...] x] is [c0 + c1 x + ...]. *)
Definition peval (coeffs : list Z) (x : Z) : Z :=
  fold_right (fun c acc => c + x * acc) 0 coeffs.

(** The sample points of a polynomial at the abscissas [xs]. *)
Definition samples (coeffs : list Z) (xs : list Z) : list point :=
  map (fun x => (x, peval coeffs x)) xs.

(** ** Votes *)

(** The interpolation of [combo] returns [v]. *)
Definition is_vote_for (v : Z) (combo : list point) : bool :=
  match lagrange_constant_term combo with
  | Ok w => w =? v
  | Raise _ => false
  end.

(** The number of [k]-subsets whose interpolation returns [v]. *)
Definition votes (processed_shares : list point) (k : nat) (v : Z) : Z :=
  Z.of_nat (length (filter (is_vote_for v) (combinations processed_shares k))).

(** The values returned on [combos], in order, the failures left out. *)
Definition successes (combos : list (list point)) : list Z :=
  flat_map (fun combo => match lagrange_constant_term combo with
                         | Ok v => [v]
                         | Raise _ => []
                         end) combos.

(** [c[key]], which reads a missing key as 0. *)
Fixpoint counter_get (key : Z) (c : Counter) : Z :=
  match c with
  | [] => 0
  | (key', count) :: rest => if key' =? key then count else counter_get key rest
  end.

(** [s] is [l] with some elements left out. *)
Inductive subseq {A : Type} : list A -> list A -> Prop :=
| subseq_nil : subseq [] []
| subseq_skip x s l : subseq s l -> subseq s (x :: l)
| subseq_take x s l : subseq s l -> subseq (x :: s) (x :: l).

(** ** Lagrange basis polynomials as coefficient lists *)

(** [x_j] occurs at another position of the list. *)
Definition clash (points : list point) (j : nat) : bool :=
  existsb (fun m => negb (Nat.eqb m j) && (x_at points j - x_at points m =? 0))
          (seq 0 (length points)).

(** The division of term [j] is exact. *)
Definition exact (points : list point) (j : nat) : bool :=
  numerator points j mod denominator points j =? 0.

(** product over [m <> j], [m < k], of [(x - X m)] *)
Definition basis_num (X : nat -> Z) (k j : nat) (x : Z) : Z :=
  prodZ (map (fun m => x - X m) (others k j)).

Fixpoint padd (p q : list Z) : list Z :=
  match p, q with
  | [], _ => q
  | _, [] => p
  | a :: p', b :: q' => (a + b) :: padd p' q'
  end.

Definition pscale (c : Z) (p : list Z) : list Z := map (Z.mul c) p.

(** the coefficients of [(x - a) * p(x)] *)
Definition pmul_linear (a : Z) (p : list Z) : list Z :=
  padd (0 :: p) (pscale (- a) p).

(** the coefficients of the product over [m] in [ms] of [(x - X m)] *)
Definition lin_prod (X : nat -> Z) (ms : list nat) : list Z :=
  fold_right (fun m p => pmul_linear (X m) p) [1] ms.

Definition psum (ps : list (list Z)) : list Z := fold_right padd [] ps.

(** The denominator of term [j], the product of the other denominators, and
    the product of all of them. *)
Definition den_at (X : nat -> Z) (k j : nat) : Z := basis_num X k j (X j).
Definition cofactor (X : nat -> Z) (k j : nat) : Z :=
  prodZ (map (den_at X k) (others k j)).
Definition den_all (X : nat -> Z) (k : nat) : Z :=
  prodZ (map (den_at X k) (seq 0 k)).

(** The coefficients of
    [sum_j P(X j) * cofactor_j * prod_(m <> j) (x - X m) - den_all * P(x)],
    the interpolation error of [P] cleared of denominators. *)
Definition defect (X : nat -> Z) (k : nat) (coeffs : list Z) : list Z :=
  padd (psum (map (fun j => pscale (peval coeffs (X j) * cofactor X k j)
                                   (lin_prod X (others k j)))
                  (seq 0 k)))
       (pscale (- den_all X k) coeffs).

(** ** The arithmetic helpers *)

(** The [ValueError]s of the helpers and of [compute_share_value]. *)
Inductive value_error : Type :=
| HcfNoArguments        (* "HCF requires at least one argument." *)
| LcmNoArguments        (* "LCM requires at least one argument." *)
| InvalidFormat         (* "Invalid function string format: ..." *)
| UnsupportedFunction   (* "Unsupported function: ..." *)
| InvalidArguments.     (* "Invalid arguments in function string: ..." *)

Inductive attempt (A : Type) : Type :=
| Value (a : A)
| ValueError (e : value_error).

Arguments Value {A} a.
Arguments ValueError {A} e.

(** [sum(args)] *)
Definition _sum (args : list Z) : Z := fold_left Z.add args 0.

(** [res = 1; for arg in args: res *= arg] *)
Definition _multiply (args : list Z) : Z := fold_left Z.mul args 1.

(** [result = args[0]], then [result = math.gcd(result, args[i])] for the
    other arguments in order. *)
Definition _hcf (args : list Z) : attempt Z :=
  match args with
  | [] => ValueError HcfNoArguments
  | first :: rest => Value (fold_left Z.gcd rest first)
  end.

(** One turn of the loop of [_lcm]. *)
Definition lcm_step (result arg : Z) : Z :=
  if (result =? 0) || (arg =? 0) then 0
  else Z.abs (result * arg) / Z.gcd result arg.

Definition _lcm (args : list Z) : attempt Z :=
  match args with
  | [] => ValueError LcmNoArguments
  | first :: rest => Value (fold_left lcm_step rest first)
  end.

(** ** Resolving a share expression *)

(** The operations of Python's [str], [re] and [int] that
    [compute_share_value] and the share loop call. *)
Class StrOps : Type := {
  (** [re.match] of the pattern of [compute_share_value] (a run of word
      characters, an opening parenthesis, any characters, a closing
      parenthesis): its groups 1 and 2, [None] when there is no match *)
  re_match_call : String.string -> option (String.string * String.string);
  (** [s.lower()] *)
  str_lower : String.string -> String.string;
  (** [s.strip()] *)
  str_strip : String.string -> String.string;
  (** [s.split(',')] *)
  str_split_comma : String.string -> list String.string;
  (** [int(s)], [None] when it raises [ValueError] *)
  int_of_str : String.string -> option Z
}.

(** [d.get(key)] on a dict given by its items. *)
Fixpoint dict_get {V : Type} (key : String.string)
    (d : list (String.string * V)) : option V :=
  match d with
  | [] => None
  | (key', v) :: rest =>
      if String.eqb key' key then Some v else dict_get key rest
  end.

Definition FUNCTION_MAP : list (String.string * (list Z -> attempt Z)) :=
  [ ("sum"%string, fun args => Value (_sum args));
    ("multiply"%string, fun args => Value (_multiply args));
    ("hcf"%string, _hcf);
    ("lcm"%string, _lcm) ].

(** [[int(arg.strip()) for arg in parts]], [None] when some [int] raises. *)
Fixpoint parse_ints `{StrOps} (parts : list String.string) : option (list Z) :=
  match parts with
  | [] => Some []
  | arg :: rest =>
      match int_of_str (str_strip arg) with
      | None => None
      | Some z =>
          match parse_ints rest with
          | None => None
          | Some zs => Some (z :: zs)
          end
      end
  end.

Definition compute_share_value `{StrOps} (func_str : String.string)
    : attempt Z :=
  match re_match_call func_str with
  | None => ValueError InvalidFormat
  | Some (group1, args_str) =>
      let func_name := str_lower group1 in
      match dict_get func_name FUNCTION_MAP with
      | None => ValueError UnsupportedFunction
      | Some f =>
          let parsed :=
            if String.eqb (str_strip args_str) ""%string then Some []
            else parse_ints (str_split_comma args_str) in
          match parsed with
          | None => ValueError InvalidArguments
          | Some args => f args
          end
      end
  end.

(** ** The share loop of [solve_secret] *)

(** A value of the [shares] object: a string, or another JSON value, on
    which [re.match] raises [TypeError]. *)
Inductive raw_value : Type :=
| RawString (s : String.string)
| RawOther.

(** The body of the [try] for one item: the share it appends, or [None]
    when it raises ([int] on the key, [compute_share_value], or [re.match]
    on a value that is no string). *)
Definition resolve_share `{StrOps} (x_str : String.string) (func : raw_value)
    : option point :=
  match int_of_str x_str with
  | None => None
  | Some x_coord =>
      match func with
      | RawOther => None
      | RawString func_str =>
          match compute_share_value func_str with
          | Value y_coord => Some (x_coord, y_coord)
          | ValueError _ => None
          end
      end
  end.

(** The standard output the handlers of the share loop print to. *)
Class Stdout : Type := {
  (** [print] of the warning of a handler for the item with this key and
      value: [false] when [print] itself raises (a text that the encoding
      of the stream cannot take, a closed stream) *)
  print_warning : String.string -> raw_value -> bool
}.

(** How the share loop ends: with the list it built, or with the exception
    that [print] raised inside a handler. *)
Inductive share_loop : Type :=
| Processed (processed_shares : list point)
| PrintRaised.

(** [for x_str, func_str in raw_shares.items()], from the current value of
    [processed_shares]: an item whose [try] raises is skipped once the
    handler has printed its warning. *)
Fixpoint process_shares `{StrOps} `{Stdout}
    (raw_shares : list (String.string * raw_value))
    (processed_shares : list point) : share_loop :=
  match raw_shares with
  | [] => Processed processed_shares
  | (x_str, func) :: rest =>
      match resolve_share x_str func with
      | Some share => process_shares rest (processed_shares ++ [share])
      | None =>
          if print_warning x_str func then process_shares rest processed_shares
          else PrintRaised
      end
  end.

(** What [solve_secret] does from its parameter check on: it ends as the
    consensus phase ends, or is cut short by the exception of a [print]. *)
Inductive raw_result : Type :=
| Finished (r : result Z)
| Aborted.

(** [solve_secret] from its parameter check on, given the document's [n],
    [k] and [shares] object. *)
Definition solve_secret_raw `{StrOps} `{Stdout}
    (raw_shares : list (String.string * raw_value)) (n k : Z) : raw_result :=
  if negb ((1 <=? k) && (k <=? n)) then Finished (Raise InvalidParameters)
  else
    match process_shares raw_shares [] with
    | PrintRaised => Aborted
    | Processed processed_shares =>
        Finished (solve_secret processed_shares n k)
    end.

(** The items of [raw_shares] whose [try] appends a share. *)
Definition resolvable `{StrOps} (item : String.string * raw_value) : bool :=
  match resolve_share (fst item) (snd item) with
  | Some _ => true
  | None => false
  end.

(** The items that do not stop the loop: their [try] succeeds, or their
    warning prints. *)
Definition passes `{StrOps} `{Stdout} (item : String.string * raw_value)
    : bool :=
  resolvable item || print_warning (fst item) (snd item).

(** The shares that the items resolve to, in order. *)
Definition resolved `{StrOps} (raw_shares : list (String.string * raw_value))
    : list point :=
  flat_map (fun item => match resolve_share (fst item) (snd item) with
                        | Some share => [share]
                        | None => []
                        end) raw_shares.

(** ** The string operations on the texts of the first example document

    What [re.match], [lower], [strip], [split] and [int] return on the
    strings that occur when the first example document of the source is
    resolved, and on a few malformed ones; tables, with no match, the
    string itself, or [ValueError] elsewhere. *)
Definition example_ops : StrOps := {|
  re_match_call s :=
    dict_get s
      [ ("sum(100,200)", ("sum", "100,200"));
        ("multiply(50,5)", ("multiply", "50,5"));
        ("HCF(120, 180)", ("HCF", "120, 180"));
        ("LCM(10, 15)", ("LCM", "10, 15"));
        ("sum(1000, 2000, 3000)", ("sum", "1000, 2000, 3000"));
        ("sum()", ("sum", ""));
        ("hcf()", ("hcf", ""));
        ("power(2,x)", ("power", "2,x"));
        ("sum(2,x)", ("sum", "2,x")) ]%string;
  str_lower s :=
    match dict_get s [ ("HCF", "hcf"); ("LCM", "lcm") ]%string with
    | Some t => t
    | None => s
    end;
  str_strip s :=
    match dict_get s
            [ (" 180", "180"); (" 15", "15"); (" 2000", "2000");
              (" 3000", "3000") ]%string with
    | Some t => t
    | None => s
    end;
  str_split_comma s :=
    match dict_get s
            [ ("100,200", ["100"; "200"]);
              ("50,5", ["50"; "5"]);
              ("120, 180", ["120"; " 180"]);
              ("10, 15", ["10"; " 15"]);
              ("1000, 2000, 3000", ["1000"; " 2000"; " 3000"]);
              ("2,x", ["2"; "x"]) ]%string with
    | Some parts => parts
    | None => [s]
    end;
  int_of_str s :=
    dict_get s
      [ ("1", 1); ("2", 2); ("3", 3); ("4", 4); ("5", 5); ("10", 10);
        ("15", 15); ("50", 50); ("100", 100); ("120", 120); ("180", 180);
        ("200", 200); ("1000", 1000); ("2000", 2000); ("3000", 3000) ]%string
|}.

(** A standard output on which every warning prints, and one on which the
    warning for the key [2] does not. *)
Definition example_stdout : Stdout := {| print_warning _ _ := true |}.

Definition failing_stdout : Stdout :=
  {| print_warning x_str _ := negb (String.eqb x_str "2"%string) |}.

(** The [shares] object of the first example document. *)
Definition example_shares : list (String.string * raw_value) :=
  [ ("1", RawString "sum(100,200)");
    ("2", RawString "multiply(50,5)");
    ("3", RawString "HCF(120, 180)");
    ("4", RawString "LCM(10, 15)");
    ("5", RawString "sum(1000, 2000, 3000)") ]%string.

(** ** The terms of the interpolation, point by point *)

(** Each element of a list with the list of the others. *)
Fixpoint picks {A : Type} (l : list A) : list (A * list A) :=
  match l with
  | [] => []
  | a :: l' => (a, l') :: map (fun pick => (fst pick, a :: snd pick)) (picks l')
  end.

(** The two products and the term of a point, given the other points. *)
Definition pick_numerator (pick : point * list point) : Z :=
  prodZ (map (fun q => - fst q) (snd pick)).

Definition pick_denominator (pick : point * list point) : Z :=
  prodZ (map (fun q => fst (fst pick) - fst q) (snd pick)).

Definition pick_term (pick : point * list point) : Z :=
  snd (fst pick) * (pick_numerator pick / pick_denominator pick).

(** The same point, with the same other points in some order. *)
Definition same_pick (a b : point * list point) : Prop :=
  fst a = fst b /\ Permutation (snd a) (snd b).

(** * Properties *)

(** ** Sums and products *)

Lemma prodZ_nonzero l : Forall (fun z => z <> 0) l -> prodZ l <> 0.
Proof.
  induction 1 as [|z l Hz _ IH]; simpl; [lia|].
  intros H. apply Z.mul_eq_0 in H. tauto.
Qed.

Lemma sumZ_scale (A : Type) (c : Z) (f : A -> Z) l :
  sumZ (map (fun a => c * f a) l) = c * sumZ (map f l).
Proof. induction l as [|a l IH]; simpl; [ring|]. rewrite IH. ring. Qed.

Lemma sumZ_zero (g : nat -> Z) l :
  (forall j, In j l -> g j = 0) -> sumZ (map g l) = 0.
Proof.
  induction l as [|b l IH]; simpl; intros H; [reflexivity|].
  rewrite (H b), IH; auto.
Qed.

(** A sum with a single non-zero term. *)
Lemma sumZ_single (g : nat -> Z) (i : nat) l :
  NoDup l -> In i l -> (forall j, In j l -> j <> i -> g j = 0) ->
  sumZ (map g l) = g i.
Proof.
  induction 1 as [|a l Ha Hnd IH]; simpl; [tauto|].
  intros [->|Hi] Hz.
  - rewrite sumZ_zero; [ring|].
    intros j Hj. apply Hz; [now right|]. intros ->. contradiction.
  - rewrite (Hz a), IH; auto.
    intros ->. contradiction.
Qed.

(** Taking one factor out of a product. *)
Lemma prodZ_split (f : nat -> Z) (j : nat) l :
  NoDup l -> In j l ->
  prodZ (map f l) = f j * prodZ (map f (filter (fun m => negb (Nat.eqb m j)) l)).
Proof.
  induction 1 as [|a l Ha Hnd IH]; simpl; [tauto|].
  intros [->|Hj].
  - rewrite Nat.eqb_refl. simpl. f_equal.
    rewrite (proj2 (filter_ext_in_iff _ (fun _ => true) l)).
    + now rewrite filter_true.
    + intros m Hm. destruct (Nat.eqb_spec m j); subst; [contradiction|reflexivity].
  - destruct (Nat.eqb_spec a j) as [->|Hne]; [contradiction|].
    simpl. rewrite IH by assumption. ring.
Qed.

(** ** Indexing *)

Lemma getitem_nth points i :
  (i < length points)%nat -> getitem points i = Ok (nth i points (0, 0)).
Proof.
  intros H. unfold getitem. now rewrite (nth_error_nth' points (0, 0) H).
Qed.

Lemma x_at_map_fst points m : x_at points m = nth m (map fst points) 0.
Proof. unfold x_at. now rewrite <- (map_nth fst points (0, 0)). Qed.

Lemma seq_below k : Forall (fun m => (m < k)%nat) (seq 0 k).
Proof. apply Forall_forall. intros m H. apply in_seq in H. lia. Qed.

Lemma others_length k j : (j < k)%nat -> S (length (others k j)) = k.
Proof.
  intros H. unfold others.
  pose proof (filter_length (fun m => negb (Nat.eqb m j)) (seq 0 k)) as L.
  rewrite length_seq in L.
  assert (E : length (filter (fun x => negb (negb (Nat.eqb x j))) (seq 0 k)) = 1%nat).
  { clear L. replace k with (j + S (k - S j))%nat by lia.
    rewrite seq_app, filter_app, length_app. simpl.
    rewrite Nat.eqb_refl. simpl.
    rewrite (proj2 (filter_ext_in_iff _ (fun _ => false) (seq 0 j))).
    2:{ intros m Hm. apply in_seq in Hm.
        destruct (Nat.eqb_spec m j); [lia|reflexivity]. }
    rewrite (proj2 (filter_ext_in_iff _ (fun _ => false) (seq (S j) _))).
    2:{ intros m Hm. apply in_seq in Hm.
        destruct (Nat.eqb_spec m j); [lia|reflexivity]. }
    assert (F : forall l : list nat, filter (fun _ => false) l = []) by
      (induction l; simpl; auto).
    now rewrite !F. }
  lia.
Qed.

Lemma in_others k j m : In m (others k j) <-> (m < k)%nat /\ m <> j.
Proof.
  unfold others. rewrite filter_In, in_seq, negb_true_iff, Nat.eqb_neq. lia.
Qed.

(** ** The two loops of the interpolator *)

(** The inner loop either meets an index [m <> j] with [x_m = x_j] and
    raises, or multiplies the two products by one factor per index. *)
Lemma basis_loop_spec points j xj ms num den :
  Forall (fun m => (m < length points)%nat) ms ->
  basis_loop points j xj ms num den =
  if existsb (fun m => negb (Nat.eqb m j) && (xj - x_at points m =? 0)) ms
  then Raise DuplicateAbscissa
  else Ok (num * prodZ (map (fun m => - x_at points m)
                            (filter (fun m => negb (Nat.eqb m j)) ms)),
           den * prodZ (map (fun m => xj - x_at points m)
                            (filter (fun m => negb (Nat.eqb m j)) ms))).
Proof.
  intros H. revert num den.
  induction H as [|m ms Hm _ IH]; intros num den; simpl.
  - now rewrite !Z.mul_1_r.
  - destruct (Nat.eqb m j); simpl; [apply IH|].
    rewrite (getitem_nth _ _ Hm). simpl.
    replace (nth m points (0, 0)) with (x_at points m, y_at points m)
      by (unfold x_at, y_at; now destruct (nth m points (0, 0))).
    destruct (xj - x_at points m =? 0); simpl; [reflexivity|].
    rewrite IH. destruct (existsb _ ms); [reflexivity|].
    now rewrite !Z.mul_assoc.
Qed.

Lemma clash_false_distinct points j :
  clash points j = false ->
  forall m, (m < length points)%nat -> m <> j -> x_at points j <> x_at points m.
Proof.
  unfold clash. intros H m Hm Hne Heq.
  assert (E : existsb (fun m => negb (Nat.eqb m j) &&
                (x_at points j - x_at points m =? 0)) (seq 0 (length points)) = true).
  { apply existsb_exists. exists m. split; [apply in_seq; lia|].
    apply andb_true_intro. split.
    - now apply negb_true_iff, Nat.eqb_neq.
    - apply Z.eqb_eq. lia. }
  congruence.
Qed.

Lemma denominator_nonzero points j :
  clash points j = false -> denominator points j <> 0.
Proof.
  intros H. unfold denominator. apply prodZ_nonzero, Forall_forall.
  intros z Hz. apply in_map_iff in Hz. destruct Hz as (m & <- & Hm).
  apply in_others in Hm.
  pose proof (clash_false_distinct _ _ H m). lia.
Qed.

(** One turn of the outer loop. *)
Lemma term_loop_step points j js secret :
  (j < length points)%nat ->
  term_loop points (j :: js) secret =
  if clash points j then Raise DuplicateAbscissa
  else if exact points j then
    term_loop points js
      (secret + y_at points j * (numerator points j / denominator points j))
  else Raise NonIntegerResult.
Proof.
  intros Hj. cbn [term_loop]. rewrite (getitem_nth _ _ Hj).
  replace (nth j points (0, 0)) with (x_at points j, y_at points j)
    by (unfold x_at, y_at; now destruct (nth j points (0, 0))).
  cbn [bind]. rewrite basis_loop_spec by apply seq_below.
  fold (clash points j). destruct (clash points j) eqn:Ec; [reflexivity|].
  cbn [bind]. rewrite !Z.mul_1_l.
  fold (others (length points) j).
  fold (numerator points j). fold (denominator points j).
  destruct (Z.eqb_spec (denominator points j) 0) as [E|_].
  { now apply denominator_nonzero in E. }
  unfold exact. now destruct (_ mod _ =? 0).
Qed.

(** The outer loop returns exactly when no index clashes and every division is
    exact, and then it has added up the terms. *)
Lemma term_loop_ok points js secret v :
  Forall (fun j => (j < length points)%nat) js ->
  term_loop points js secret = Ok v <->
  Forall (fun j => clash points j = false /\ exact points j = true) js /\
  v = secret + sumZ (map (fun j => y_at points j *
                                   (numerator points j / denominator points j)) js).
Proof.
  intros H. revert secret.
  induction H as [|j js Hj _ IH]; intros secret.
  - simpl. split.
    + intros [= <-]. split; [constructor|ring].
    + intros [_ ->]. f_equal. ring.
  - rewrite term_loop_step by assumption.
    destruct (clash points j) eqn:Ec.
    { split; [discriminate|]. intros [F _]. inversion F as [|? ? [? ?] ?]. congruence. }
    destruct (exact points j) eqn:Ee.
    2:{ split; [discriminate|]. intros [F _]. inversion F as [|? ? [? ?] ?]. congruence. }
    rewrite IH. simpl. split.
    + intros [F ->]. split; [constructor; auto|ring].
    + intros [F ->]. inversion F; subst. split; [assumption|ring].
Qed.

(** The only exceptions of the outer loop are the two documented ones, each
    with its cause among the indices visited. *)
Lemma term_loop_raise points js secret e :
  Forall (fun j => (j < length points)%nat) js ->
  term_loop points js secret = Raise e ->
  (e = DuplicateAbscissa /\ Exists (fun j => clash points j = true) js) \/
  (e = NonIntegerResult /\
   Exists (fun j => clash points j = false /\ exact points j = false) js).
Proof.
  intros H. revert secret.
  induction H as [|j js Hj _ IH]; intros secret; [discriminate|].
  rewrite term_loop_step by assumption.
  destruct (clash points j) eqn:Ec; [intros [= <-]; left; auto|].
  destruct (exact points j) eqn:Ee; [|intros [= <-]; right; auto].
  intros H. destruct (IH _ H) as [[-> Hx]|[-> Hx]]; [left|right]; auto.
Qed.

(** A clash is reported as such when no term before it is inexact. *)
Lemma term_loop_duplicate points js secret :
  Forall (fun j => (j < length points)%nat) js ->
  Exists (fun j => clash points j = true) js ->
  (forall j, In j js -> clash points j = false -> exact points j = true) ->
  term_loop points js secret = Raise DuplicateAbscissa.
Proof.
  intros H. revert secret.
  induction H as [|j js Hj _ IH]; intros secret Hx Hexact.
  - inversion Hx.
  - rewrite term_loop_step by assumption.
    destruct (clash points j) eqn:Ec; [reflexivity|].
    rewrite (Hexact j) by (simpl; auto). apply IH.
    + inversion Hx; subst; [congruence|assumption].
    + intros i Hi. apply Hexact. now right.
Qed.

Lemma lagrange_ok points v :
  lagrange_constant_term points = Ok v <->
  (forall j, (j < length points)%nat ->
             clash points j = false /\ exact points j = true) /\
  v = lagrange_formula points.
Proof.
  unfold lagrange_constant_term, lagrange_formula.
  rewrite term_loop_ok by apply seq_below.
  rewrite Forall_forall. simpl. split; intros [H ->]; split; auto.
  - intros j Hj. apply H, in_seq. lia.
  - intros j Hj. apply H. apply in_seq in Hj. lia.
Qed.

Lemma lagrange_raise points e :
  lagrange_constant_term points = Raise e ->
  (e = DuplicateAbscissa /\
   exists j, (j < length points)%nat /\ clash points j = true) \/
  (e = NonIntegerResult /\
   exists j, (j < length points)%nat /\ exact points j = false).
Proof.
  intros H. apply term_loop_raise in H; [|apply seq_below].
  destruct H as [[-> Hx]|[-> Hx]]; [left|right]; split; auto;
    apply Exists_exists in Hx; destruct Hx as (j & Hj & Hc);
    apply in_seq in Hj; exists j; (split; [lia|tauto]).
Qed.

(** No index clashes exactly when the x-coordinates are pairwise distinct. *)
Lemma no_clash_NoDup points :
  (forall j, (j < length points)%nat -> clash points j = false) <->
  NoDup (map fst points).
Proof.
  rewrite (NoDup_nth (map fst points) 0), length_map. split.
  - intros H i j Hi Hj E. destruct (Nat.eq_dec i j) as [|Hne]; [assumption|].
    exfalso. apply (clash_false_distinct _ _ (H i Hi) j Hj); [congruence|].
    now rewrite !x_at_map_fst.
  - intros H j Hj. unfold clash.
    destruct (existsb _ _) eqn:E; [|reflexivity].
    apply existsb_exists in E. destruct E as (m & Hm & E).
    apply in_seq in Hm. apply andb_prop in E. destruct E as [E1 E2].
    apply negb_true_iff, Nat.eqb_neq in E1. apply Z.eqb_eq in E2.
    exfalso. apply E1. unfold point in *. apply H; [lia|lia|].
    rewrite <- !x_at_map_fst. lia.
Qed.

(** ** Polynomials: evaluation, degree and roots *)

Lemma peval_padd p q x : peval (padd p q) x = peval p x + peval q x.
Proof.
  revert q. induction p as [|a p IH]; intros [|b q]; simpl; try ring.
  fold (peval (padd p q) x). rewrite IH. unfold peval. ring.
Qed.

Lemma length_padd p q : length (padd p q) = Nat.max (length p) (length q).
Proof.
  revert q. induction p as [|a p IH]; intros [|b q]; simpl; auto.
Qed.

Lemma peval_pscale c p x : peval (pscale c p) x = c * peval p x.
Proof.
  induction p as [|a p IH]; simpl; [ring|].
  fold (peval (pscale c p) x). rewrite IH. unfold peval. ring.
Qed.

Lemma length_pscale c p : length (pscale c p) = length p.
Proof. apply length_map. Qed.

Lemma peval_pmul_linear a p x : peval (pmul_linear a p) x = (x - a) * peval p x.
Proof.
  unfold pmul_linear. rewrite peval_padd, peval_pscale. simpl.
  fold (peval p x). ring.
Qed.

Lemma length_pmul_linear a p : length (pmul_linear a p) = S (length p).
Proof.
  unfold pmul_linear. rewrite length_padd, length_pscale. cbn [length]. lia.
Qed.

Lemma peval_lin_prod X ms x :
  peval (lin_prod X ms) x = prodZ (map (fun m => x - X m) ms).
Proof.
  induction ms as [|m ms IH].
  - cbv [lin_prod peval prodZ map fold_right]. ring.
  - cbn [lin_prod fold_right map prodZ].
    fold (lin_prod X ms). fold (prodZ (map (fun m => x - X m) ms)).
    now rewrite peval_pmul_linear, IH.
Qed.

Lemma length_lin_prod X ms : length (lin_prod X ms) = S (length ms).
Proof.
  induction ms as [|m ms IH]; simpl; [reflexivity|].
  fold (lin_prod X ms). now rewrite length_pmul_linear, IH.
Qed.

Lemma peval_psum ps x : peval (psum ps) x = sumZ (map (fun p => peval p x) ps).
Proof.
  induction ps as [|p ps IH]; simpl; [reflexivity|].
  fold (psum ps). now rewrite peval_padd, IH.
Qed.

Lemma length_psum ps d :
  Forall (fun p => (length p <= d)%nat) ps -> (length (psum ps) <= d)%nat.
Proof.
  induction 1 as [|p ps Hp _ IH]; simpl; [lia|].
  fold (psum ps). rewrite length_padd. lia.
Qed.

Lemma peval_0 coeffs : peval coeffs 0 = hd 0 coeffs.
Proof. destruct coeffs; simpl; lia. Qed.

(** Division by [x - a]: the remainder is the value at [a]. *)
Lemma peval_factor c coeffs a :
  exists q, length q = length coeffs /\
            forall x, peval (c :: coeffs) x
                      = (x - a) * peval q x + peval (c :: coeffs) a.
Proof.
  revert c. induction coeffs as [|c' coeffs IH]; intros c.
  - exists []. split; [reflexivity|]. intros x. simpl. ring.
  - destruct (IH c') as (q & Hlen & Hq).
    exists (peval (c' :: coeffs) a :: q). split; [simpl; now rewrite Hlen|].
    intros x.
    change (peval (c :: c' :: coeffs) x) with (c + x * peval (c' :: coeffs) x).
    change (peval (c :: c' :: coeffs) a) with (c + a * peval (c' :: coeffs) a).
    change (peval (peval (c' :: coeffs) a :: q) x)
      with (peval (c' :: coeffs) a + x * peval q x).
    rewrite (Hq x). ring.
Qed.

(** A polynomial with at least as many distinct roots as coefficients
    vanishes everywhere. *)
Lemma peval_roots roots :
  NoDup roots ->
  forall coeffs, (length coeffs <= length roots)%nat ->
  (forall r, In r roots -> peval coeffs r = 0) ->
  forall x, peval coeffs x = 0.
Proof.
  induction 1 as [|r roots Hr Hnd IH]; intros coeffs Hlen Hroot x.
  - destruct coeffs; [reflexivity|simpl in Hlen; lia].
  - destruct coeffs as [|c coeffs]; [reflexivity|].
    destruct (peval_factor c coeffs r) as (q & Hq & Hdiv).
    rewrite Hdiv, (Hroot r) by now left.
    rewrite (IH q); [ring| |].
    + simpl in Hlen. lia.
    + intros r' Hr'.
      assert (E : (r' - r) * peval q r' = 0).
      { pose proof (Hdiv r') as E.
        rewrite (Hroot r') in E by now right.
        rewrite (Hroot r) in E by now left. lia. }
      apply Z.mul_eq_0 in E. destruct E as [E|E]; [|assumption].
      exfalso. apply Hr. replace r with r' by lia. assumption.
Qed.

Lemma NoDup_map_on (X : nat -> Z) l :
  (forall i j, In i l -> In j l -> X i = X j -> i = j) ->
  NoDup l -> NoDup (map X l).
Proof.
  intros Hinj. induction 1 as [|a l Ha Hnd IH]; simpl; constructor.
  - intros Hin. apply in_map_iff in Hin. destruct Hin as (b & Hb & Hbl).
    apply Ha. rewrite <- (Hinj b a); simpl; auto.
  - apply IH. intros i j Hi Hj. apply Hinj; now right.
Qed.

Lemma prodZ_zero l : In 0 l -> prodZ l = 0.
Proof.
  induction l as [|z l IH]; simpl; [tauto|].
  intros [->|H]; [reflexivity|]. rewrite IH by assumption. ring.
Qed.

(** ** Lagrange interpolation at zero, over the integers *)

Section Interpolation.

Variables (k : nat) (X : nat -> Z) (coeffs : list Z).
Hypothesis X_distinct :
  forall i j, (i < k)%nat -> (j < k)%nat -> X i = X j -> i = j.
Hypothesis degree_below : (length coeffs <= k)%nat.

Lemma basis_num_other i j :
  (i < k)%nat -> i <> j -> basis_num X k j (X i) = 0.
Proof.
  intros Hi Hne. unfold basis_num. apply prodZ_zero, in_map_iff.
  exists i. split; [ring|]. now apply in_others.
Qed.

Lemma den_at_nonzero j : (j < k)%nat -> den_at X k j <> 0.
Proof.
  intros Hj. unfold den_at, basis_num. apply prodZ_nonzero, Forall_forall.
  intros z Hz. apply in_map_iff in Hz. destruct Hz as (m & <- & Hm).
  apply in_others in Hm. destruct Hm as [Hm Hne].
  intros E. apply Hne. symmetry. apply X_distinct; auto. lia.
Qed.

Lemma den_all_split j :
  (j < k)%nat -> den_all X k = den_at X k j * cofactor X k j.
Proof.
  intros Hj. unfold den_all, cofactor, others.
  apply prodZ_split; [apply seq_NoDup|apply in_seq; lia].
Qed.

Lemma den_all_nonzero : den_all X k <> 0.
Proof.
  unfold den_all. apply prodZ_nonzero, Forall_forall.
  intros z Hz. apply in_map_iff in Hz. destruct Hz as (j & <- & Hj).
  apply in_seq in Hj. apply den_at_nonzero. lia.
Qed.

Lemma peval_defect x :
  peval (defect X k coeffs) x =
  sumZ (map (fun j => peval coeffs (X j) * cofactor X k j * basis_num X k j x)
            (seq 0 k))
  - den_all X k * peval coeffs x.
Proof.
  unfold defect. rewrite peval_padd, peval_pscale, peval_psum, map_map.
  rewrite (map_ext _ (fun j => peval coeffs (X j) * cofactor X k j
                               * basis_num X k j x)).
  - ring.
  - intros j. now rewrite peval_pscale, peval_lin_prod.
Qed.

Lemma length_defect : (length (defect X k coeffs) <= k)%nat.
Proof.
  unfold defect. rewrite length_padd, length_pscale.
  apply Nat.max_lub; [|assumption].
  apply length_psum, Forall_forall. intros p Hp.
  apply in_map_iff in Hp. destruct Hp as (j & <- & Hj). apply in_seq in Hj.
  rewrite length_pscale, length_lin_prod, others_length; lia.
Qed.

Lemma defect_root i : (i < k)%nat -> peval (defect X k coeffs) (X i) = 0.
Proof.
  intros Hi. rewrite peval_defect.
  rewrite (sumZ_single _ i).
  - fold (den_at X k i). rewrite (den_all_split i Hi). ring.
  - apply seq_NoDup.
  - apply in_seq. lia.
  - intros j _ Hne. rewrite basis_num_other by auto. ring.
Qed.

Lemma defect_zero x : peval (defect X k coeffs) x = 0.
Proof.
  apply (peval_roots (map X (seq 0 k))).
  - apply NoDup_map_on; [|apply seq_NoDup].
    intros i j Hi Hj. apply in_seq in Hi, Hj. apply X_distinct; lia.
  - rewrite length_map, length_seq. apply length_defect.
  - intros r Hr. apply in_map_iff in Hr. destruct Hr as (i & <- & Hi).
    apply in_seq in Hi. apply defect_root. lia.
Qed.

(** When every basis coefficient at zero is an integer, the interpolation
    sum is the value of the polynomial at zero. *)
Lemma interpolation_at_zero :
  (forall j, (j < k)%nat -> basis_num X k j 0 mod den_at X k j = 0) ->
  sumZ (map (fun j => peval coeffs (X j) * (basis_num X k j 0 / den_at X k j))
            (seq 0 k))
  = peval coeffs 0.
Proof.
  intros Hexact.
  apply (Z.mul_reg_l _ _ (den_all X k) den_all_nonzero).
  rewrite <- sumZ_scale.
  pose proof (defect_zero 0) as E. rewrite peval_defect in E.
  rewrite (map_ext_in _ (fun j => peval coeffs (X j) * cofactor X k j
                                  * basis_num X k j 0)); [lia|].
  intros j Hj. apply in_seq in Hj.
  assert (Hj' : (j < k)%nat) by lia.
  rewrite (den_all_split j Hj').
  rewrite (Z_div_exact_full_2 (basis_num X k j 0) (den_at X k j)) at 2
    by auto using den_at_nonzero.
  ring.
Qed.

End Interpolation.

(** ** Sample points of a polynomial *)

Lemma length_samples coeffs xs : length (samples coeffs xs) = length xs.
Proof. apply length_map. Qed.

Lemma map_fst_samples coeffs xs : map fst (samples coeffs xs) = xs.
Proof.
  unfold samples. rewrite map_map. simpl. apply map_id.
Qed.

Lemma y_at_samples coeffs xs j :
  (j < length xs)%nat ->
  y_at (samples coeffs xs) j = peval coeffs (x_at (samples coeffs xs) j).
Proof.
  intros Hj. unfold x_at, y_at, samples.
  rewrite (nth_indep _ (0, 0) (0, peval coeffs 0)) by now rewrite length_map.
  change (0, peval coeffs 0) with ((fun x => (x, peval coeffs x)) 0).
  now rewrite map_nth.
Qed.

Lemma numerator_basis_num points j :
  numerator points j = basis_num (x_at points) (length points) j 0.
Proof.
  unfold numerator, basis_num.
  rewrite (map_ext _ (fun m => 0 - x_at points m)); [reflexivity|].
  intros m. ring.
Qed.

Lemma has_duplicate_clash points :
  has_duplicate_abscissa points ->
  exists j, (j < length points)%nat /\ clash points j = true.
Proof.
  intros (i & j & p & q & Hne & Hp & Hq & E).
  assert (Hi : (i < length points)%nat) by (apply nth_error_Some; congruence).
  assert (Hj : (j < length points)%nat) by (apply nth_error_Some; congruence).
  exists i. split; [assumption|].
  unfold clash. apply existsb_exists. exists j. split; [apply in_seq; lia|].
  apply andb_true_intro. split.
  - apply negb_true_iff, Nat.eqb_neq. congruence.
  - apply Z.eqb_eq. unfold x_at.
    rewrite (nth_error_nth points i ((0, 0) : point) Hp).
    rewrite (nth_error_nth points j ((0, 0) : point) Hq). lia.
Qed.

(** Exactness of the interpolation sum on the sample points of a polynomial. *)
Lemma lagrange_formula_samples coeffs xs :
  (length coeffs <= length xs)%nat -> NoDup xs ->
  (forall j, (j < length xs)%nat -> exact (samples coeffs xs) j = true) ->
  lagrange_formula (samples coeffs xs) = hd 0 coeffs.
Proof.
  intros Hdeg Hnd Hexact. set (points := samples coeffs xs) in *.
  assert (Hlen : length points = length xs) by apply length_samples.
  rewrite <- peval_0.
  rewrite <- (interpolation_at_zero (length points) (x_at points) coeffs).
  - unfold lagrange_formula.
    rewrite (map_ext_in _ (fun j => peval coeffs (x_at points j) *
              (basis_num (x_at points) (length points) j 0 /
               den_at (x_at points) (length points) j))); [reflexivity|].
    intros j Hj. apply in_seq in Hj. rewrite numerator_basis_num.
    unfold points at 1. rewrite y_at_samples by lia. reflexivity.
  - intros i j Hi Hj E. rewrite !x_at_map_fst in E.
    unfold points in E. rewrite map_fst_samples in E.
    apply (proj1 (NoDup_nth xs 0) Hnd); lia.
  - lia.
  - intros j Hj. rewrite <- numerator_basis_num.
    apply Z.eqb_eq. apply Hexact. lia.
Qed.

(** ** The interpolator: results *)

(** C9. On a single point [(x, y)], whatever [x] is, the interpolator returns
    [y]: both products are empty, so the basis coefficient is [1 / 1]. *)
Theorem lagrange_constant_term_single_point (x y : Z) :
  lagrange_constant_term [(x, y)] = Ok y.
Proof.
  unfold lagrange_constant_term. cbn [length seq term_loop getitem nth_error bind].
  cbn [basis_loop Nat.eqb bind].
  change (1 =? 0) with false. change (negb (1 mod 1 =? 0)) with false.
  change (1 / 1) with 1. cbv iota. f_equal. ring.
Qed.

(** C2. When the interpolator returns [v], the x-coordinates are pairwise
    distinct, every denominator is non-zero and divides its numerator, and
    [v] is the sum over [j] of [y_j * (numerator_j / denominator_j)]. *)
Theorem lagrange_constant_term_formula (points : list point) (v : Z) :
  lagrange_constant_term points = Ok v ->
  NoDup (map fst points) /\
  (forall j, (j < length points)%nat ->
     denominator points j <> 0 /\
     numerator points j mod denominator points j = 0) /\
  v = lagrange_formula points.
Proof.
  intros H. apply lagrange_ok in H. destruct H as [H ->].
  split; [|split; [|reflexivity]].
  - apply no_clash_NoDup. intros j Hj. now apply H.
  - intros j Hj. destruct (H j Hj) as [Hc He]. split.
    + now apply denominator_nonzero.
    + now apply Z.eqb_eq.
Qed.

Lemma lagrange_constant_term_formula_witness :
  lagrange_constant_term [(1, 300); (2, 250); (3, 60)] = Ok 210 /\
  210 = lagrange_formula [(1, 300); (2, 250); (3, 60)].
Proof.
  split; [reflexivity|].
  apply (lagrange_constant_term_formula [(1, 300); (2, 250); (3, 60)] 210).
  reflexivity.
Defined.

(** C1 (amended). On [k] sample points, at pairwise distinct abscissas, of a
    polynomial with integer coefficients of degree less than [k], the
    interpolator returns the constant term when every per-term division is
    exact, and fails with NonIntegerResult otherwise; it never returns
    another value. *)
Theorem lagrange_constant_term_exactness (coeffs xs : list Z) :
  (length coeffs <= length xs)%nat -> NoDup xs ->
  lagrange_constant_term (samples coeffs xs) =
  if forallb (exact (samples coeffs xs)) (seq 0 (length xs))
  then Ok (hd 0 coeffs) else Raise NonIntegerResult.
Proof.
  intros Hdeg Hnd.
  assert (Hclash : forall j, (j < length (samples coeffs xs))%nat ->
                             clash (samples coeffs xs) j = false).
  { apply no_clash_NoDup. now rewrite map_fst_samples. }
  destruct (forallb _ _) eqn:Hall.
  - rewrite forallb_forall in Hall.
    assert (Hexact : forall j, (j < length xs)%nat ->
                               exact (samples coeffs xs) j = true).
    { intros j Hj. apply Hall, in_seq. lia. }
    apply lagrange_ok. split.
    + intros j Hj. rewrite length_samples in Hj.
      split; [apply Hclash; now rewrite length_samples|now apply Hexact].
    + symmetry. now apply lagrange_formula_samples.
  - destruct (lagrange_constant_term (samples coeffs xs)) as [v|e] eqn:E.
    + apply lagrange_ok in E. destruct E as [E _].
      assert (F : forallb (exact (samples coeffs xs)) (seq 0 (length xs)) = true).
      { apply forallb_forall. intros j Hj. apply in_seq in Hj.
        apply E. rewrite length_samples. lia. }
      congruence.
    + apply lagrange_raise in E.
      destruct E as [[-> (j & Hj & Hc)]|[-> _]]; [|reflexivity].
      rewrite Hclash in Hc by assumption. discriminate.
Qed.

Lemma lagrange_constant_term_exactness_witness :
  (length [210; 160; -70]%Z <= length [1; 2; 3]%Z)%nat /\ NoDup [1; 2; 3] /\
  lagrange_constant_term (samples [210; 160; -70] [1; 2; 3]) = Ok 210.
Proof.
  assert (Hnd : NoDup [1; 2; 3]).
  { repeat constructor; simpl; intros H; repeat destruct H as [H|H];
      try discriminate H; exact H. }
  assert (Hdeg : (length [210; 160; -70]%Z <= length [1; 2; 3]%Z)%nat).
  { simpl. apply le_n. }
  split; [exact Hdeg|]. split; [exact Hnd|].
  exact (lagrange_constant_term_exactness [210; 160; -70] [1; 2; 3] Hdeg Hnd).
Defined.

(** C1, as stated, fails: the constant polynomial 5 sampled at 1 and 3 makes
    the first term [-3 / -2], and the interpolator raises. *)
Lemma lagrange_constant_term_inexact_samples :
  (length [5]%Z <= length [1; 3]%Z)%nat /\ NoDup [1; 3] /\
  samples [5] [1; 3] = [(1, 5); (3, 5)] /\
  lagrange_constant_term (samples [5] [1; 3]) = Raise NonIntegerResult /\
  lagrange_constant_term (samples [5] [1; 3]) <> Ok (hd 0 [5]).
Proof.
  split; [simpl; lia|]. split.
  { repeat constructor; simpl; intros H; repeat destruct H as [H|H];
      try discriminate H; exact H. }
  split; [reflexivity|]. split; [reflexivity|discriminate].
Qed.

(** The outer loop raises NonIntegerResult exactly when it reaches an inexact
    term before any term whose abscissa is repeated. *)
Lemma term_loop_non_integer points len a secret :
  (a + len = length points)%nat ->
  term_loop points (seq a len) secret = Raise NonIntegerResult <->
  exists j, (a <= j < a + len)%nat /\ exact points j = false /\
            forall i, (a <= i <= j)%nat -> clash points i = false.
Proof.
  revert a secret. induction len as [|len IH]; intros a secret Hlen.
  - simpl. split; [discriminate|]. intros (j & Hj & _). lia.
  - cbn [seq]. rewrite term_loop_step by lia.
    destruct (clash points a) eqn:Ec.
    { split; [discriminate|]. intros (j & Hj & _ & Hc).
      rewrite Hc in Ec by lia. discriminate. }
    destruct (exact points a) eqn:Ee.
    + rewrite IH by lia. split; intros (j & Hj & He & Hc); exists j.
      * split; [lia|]. split; [assumption|]. intros i Hi.
        destruct (Nat.eq_dec i a) as [->|]; [assumption|]. apply Hc. lia.
      * assert (j <> a) by congruence.
        split; [lia|]. split; [assumption|]. intros i Hi. apply Hc. lia.
    + split; [|reflexivity]. intros _. exists a.
      split; [lia|]. split; [assumption|]. intros i Hi.
      now replace i with a by lia.
Qed.

(** It raises DuplicateAbscissa exactly when it reaches a term whose abscissa
    is repeated and every term before it is exact, with an abscissa of its
    own. *)
Lemma term_loop_duplicate_abscissa points len a secret :
  (a + len = length points)%nat ->
  term_loop points (seq a len) secret = Raise DuplicateAbscissa <->
  exists j, (a <= j < a + len)%nat /\ clash points j = true /\
            forall i, (a <= i < j)%nat ->
                      clash points i = false /\ exact points i = true.
Proof.
  revert a secret. induction len as [|len IH]; intros a secret Hlen.
  - simpl. split; [discriminate|]. intros (j & Hj & _). lia.
  - cbn [seq]. rewrite term_loop_step by lia.
    destruct (clash points a) eqn:Ec.
    { split; [|reflexivity]. intros _. exists a.
      split; [lia|]. split; [assumption|]. intros i Hi. lia. }
    destruct (exact points a) eqn:Ee.
    + rewrite IH by lia. split; intros (j & Hj & Hcj & Hb); exists j.
      * split; [lia|]. split; [assumption|]. intros i Hi.
        destruct (Nat.eq_dec i a) as [->|]; [auto|]. apply Hb. lia.
      * assert (j <> a) by congruence.
        split; [lia|]. split; [assumption|]. intros i Hi. apply Hb. lia.
    + split; [discriminate|]. intros (j & Hj & Hcj & Hb).
      assert (j <> a) by congruence.
      destruct (Hb a) as [_ He]; [lia|]. congruence.
Qed.

(** C5 (amended). A list holding two points with equal x-coordinates, whatever
    the y-values, makes the interpolator fail. It fails with
    NonIntegerResult exactly when the division of some term is not exact
    while neither the abscissa of that term nor the abscissa of any term
    before it occurs twice in the list, and with DuplicateAbscissa exactly
    when the abscissa of some term occurs twice while every term before it
    is exact with an abscissa that occurs once. In particular the failure is
    DuplicateAbscissa whenever every term whose own abscissa is not
    repeated divides exactly. *)
Theorem lagrange_constant_term_duplicate (points : list point) :
  has_duplicate_abscissa points ->
  (lagrange_constant_term points = Raise DuplicateAbscissa \/
   lagrange_constant_term points = Raise NonIntegerResult) /\
  (lagrange_constant_term points = Raise NonIntegerResult <->
   exists j, (j < length points)%nat /\ exact points j = false /\
             forall i, (i <= j)%nat -> clash points i = false) /\
  (lagrange_constant_term points = Raise DuplicateAbscissa <->
   exists j, (j < length points)%nat /\ clash points j = true /\
             forall i, (i < j)%nat ->
                       clash points i = false /\ exact points i = true) /\
  ((forall j, (j < length points)%nat ->
              clash points j = false -> exact points j = true) ->
   lagrange_constant_term points = Raise DuplicateAbscissa).
Proof.
  intros Hdup. apply has_duplicate_clash in Hdup. destruct Hdup as (j & Hj & Hc).
  split; [|split; [|split]].
  - destruct (lagrange_constant_term points) as [v|e] eqn:E.
    + apply lagrange_ok in E. destruct E as [E _].
      destruct (E j Hj). congruence.
    + apply lagrange_raise in E. destruct E as [[-> _]|[-> _]]; auto.
  - unfold lagrange_constant_term. cbn zeta.
    rewrite term_loop_non_integer by reflexivity.
    split; intros (i & Hi & He & Hb); exists i;
      (split; [lia|]); (split; [assumption|]); intros m Hm; apply Hb; lia.
  - unfold lagrange_constant_term. cbn zeta.
    rewrite term_loop_duplicate_abscissa by reflexivity.
    split; intros (i & Hi & He & Hb); exists i;
      (split; [lia|]); (split; [assumption|]); intros m Hm; apply Hb; lia.
  - intros Hexact. apply term_loop_duplicate; [apply seq_below| |].
    + apply Exists_exists. exists j. split; [apply in_seq; lia|assumption].
    + intros i Hi. apply in_seq in Hi. apply Hexact. lia.
Qed.

Lemma lagrange_constant_term_duplicate_witness :
  has_duplicate_abscissa [(3, 1); (3, 2)] /\
  (lagrange_constant_term [(3, 1); (3, 2)] = Raise DuplicateAbscissa \/
   lagrange_constant_term [(3, 1); (3, 2)] = Raise NonIntegerResult).
Proof.
  assert (H : has_duplicate_abscissa [(3, 1); (3, 2)]).
  { exists 0%nat, 1%nat, (3, 1), (3, 2). repeat split. discriminate. }
  split; [exact H|].
  exact (proj1 (lagrange_constant_term_duplicate [(3, 1); (3, 2)] H)).
Defined.

(** C5, as stated, fails: in [(1,0); (3,0); (3,0)] the first term is
    [9 / 4], and the interpolator raises NonIntegerResult before it meets
    the repeated abscissa. *)
Lemma lagrange_constant_term_duplicate_masked :
  has_duplicate_abscissa [(1, 0); (3, 0); (3, 0)] /\
  lagrange_constant_term [(1, 0); (3, 0); (3, 0)] = Raise NonIntegerResult /\
  lagrange_constant_term [(1, 0); (3, 0); (3, 0)] <> Raise DuplicateAbscissa.
Proof.
  split.
  { exists 1%nat, 2%nat, (3, 0), (3, 0). repeat split. discriminate. }
  split; [reflexivity|discriminate].
Qed.

(** ** The counter *)

Lemma counter_get_incr_same key c :
  counter_get key (counter_incr key c) = counter_get key c + 1.
Proof.
  induction c as [|[key' count] c IH]; simpl.
  - now rewrite Z.eqb_refl.
  - destruct (key' =? key) eqn:E; simpl; rewrite E; [reflexivity|apply IH].
Qed.

Lemma counter_get_incr_other key key' c :
  key' <> key -> counter_get key' (counter_incr key c) = counter_get key' c.
Proof.
  intros Hne. induction c as [|[key0 count] c IH]; simpl.
  - destruct (Z.eqb_spec key key'); [congruence|reflexivity].
  - destruct (Z.eqb_spec key0 key) as [->|]; simpl.
    + destruct (Z.eqb_spec key key'); [congruence|reflexivity].
    + now rewrite IH.
Qed.

Lemma counter_incr_keys key c k' :
  In k' (map fst (counter_incr key c)) <-> k' = key \/ In k' (map fst c).
Proof.
  induction c as [|[key0 count] c IH]; simpl.
  - intuition.
  - destruct (Z.eqb_spec key0 key) as [->|]; simpl; [intuition|].
    rewrite IH. intuition.
Qed.

Lemma counter_incr_NoDup key c :
  NoDup (map fst c) -> NoDup (map fst (counter_incr key c)).
Proof.
  induction c as [|[key0 count] c IH]; simpl; intros H.
  - repeat constructor. simpl. tauto.
  - inversion H as [|? ? Hin Hnd]; subst.
    destruct (Z.eqb_spec key0 key) as [->|Hne]; simpl; constructor; auto.
    rewrite counter_incr_keys. intros [E|E]; auto.
Qed.

Lemma counter_incr_nonempty key c : counter_incr key c <> [].
Proof. destruct c as [|[key' count] c]; simpl; [|destruct (key' =? key)]; discriminate. Qed.

Lemma counter_get_in key count c :
  NoDup (map fst c) -> In (key, count) c -> counter_get key c = count.
Proof.
  induction c as [|[key0 count0] c IH]; simpl; [tauto|].
  intros H Hin. inversion H as [|? ? Hnot Hnd]; subst.
  destruct Hin as [[= -> ->]|Hin].
  - now rewrite Z.eqb_refl.
  - destruct (Z.eqb_spec key0 key) as [->|]; [|now apply IH].
    exfalso. apply Hnot. apply in_map_iff. now exists (key, count).
Qed.

Lemma counter_get_absent key c :
  ~ In key (map fst c) -> counter_get key c = 0.
Proof.
  induction c as [|[key0 count0] c IH]; simpl; [reflexivity|].
  intros H. destruct (Z.eqb_spec key0 key); [tauto|]. apply IH. tauto.
Qed.

(** [max] returns one of the items, and none has a larger count. *)
Lemma max_by_count_in best items : In (max_by_count best items) (best :: items).
Proof.
  revert best. induction items as [|item items IH]; intros best; simpl.
  - now left.
  - destruct (snd best <? snd item); specialize (IH item) as H1;
      specialize (IH best) as H2; simpl in *; tauto.
Qed.

Lemma max_by_count_seed best items : snd best <= snd (max_by_count best items).
Proof.
  revert best. induction items as [|item items IH]; intros best; simpl; [lia|].
  destruct (Z.ltb_spec (snd best) (snd item)); [|apply IH].
  specialize (IH item). lia.
Qed.

Lemma max_by_count_max best items item :
  In item (best :: items) -> snd item <= snd (max_by_count best items).
Proof.
  revert best. induction items as [|item0 items IH]; intros best.
  - intros [->|[]]. simpl. lia.
  - cbn [max_by_count].
    pose proof (max_by_count_seed item0 items) as H0.
    pose proof (max_by_count_seed best items) as Hb.
    destruct (Z.ltb_spec (snd best) (snd item0)) as [Hlt|Hge];
      intros [->|[->|Hin]]; try lia; apply IH; now right.
Qed.

(** ** The voting loop *)

Lemma fold_cast_vote_successes combos c :
  fold_left cast_vote combos c
  = fold_left (fun c v => counter_incr v c) (successes combos) c.
Proof.
  revert c. induction combos as [|combo combos IH]; intros c; simpl;
    [reflexivity|].
  rewrite fold_left_app, IH. unfold cast_vote.
  now destruct (lagrange_constant_term combo).
Qed.

Lemma fold_incr_nil vs c :
  fold_left (fun c v => counter_incr v c) vs c = [] <-> vs = [] /\ c = [].
Proof.
  revert c. induction vs as [|v vs IH]; intros c; simpl.
  - intuition.
  - rewrite IH. split; [|intros [? _]; discriminate].
    intros [_ H]. now apply counter_incr_nonempty in H.
Qed.

Lemma successes_nil combos :
  successes combos = [] <->
  forall combo, In combo combos -> exists e, lagrange_constant_term combo = Raise e.
Proof.
  induction combos as [|combo combos IH]; simpl.
  - intuition.
  - destruct (lagrange_constant_term combo) as [v|e] eqn:E; simpl.
    + split; [discriminate|]. intros H.
      destruct (H combo (or_introl eq_refl)) as [e He]. congruence.
    + rewrite IH. split.
      * intros H c [<-|Hc]; [now exists e|auto].
      * intros H c Hc. apply H. now right.
Qed.

Lemma fold_cast_vote_NoDup combos c :
  NoDup (map fst c) -> NoDup (map fst (fold_left cast_vote combos c)).
Proof.
  revert c. induction combos as [|combo combos IH]; intros c H; simpl;
    [assumption|].
  apply IH. unfold cast_vote.
  destruct (lagrange_constant_term combo); [now apply counter_incr_NoDup|assumption].
Qed.

Lemma fold_cast_vote_get v combos c :
  counter_get v (fold_left cast_vote combos c)
  = counter_get v c + Z.of_nat (length (filter (is_vote_for v) combos)).
Proof.
  revert c. induction combos as [|combo combos IH]; intros c; simpl; [lia|].
  rewrite IH. unfold cast_vote, is_vote_for.
  destruct (lagrange_constant_term combo) as [w|e]; [|lia].
  destruct (Z.eqb_spec w v) as [->|Hne].
  - rewrite counter_get_incr_same. simpl length. lia.
  - rewrite counter_get_incr_other by congruence. lia.
Qed.

(** Every key of the counter was the result of some subset. *)
Lemma fold_cast_vote_keys v combos c :
  In v (map fst (fold_left cast_vote combos c)) ->
  In v (map fst c) \/
  exists combo, In combo combos /\ lagrange_constant_term combo = Ok v.
Proof.
  revert c. induction combos as [|combo combos IH]; intros c; simpl; [auto|].
  intros H. apply IH in H. destruct H as [H|(combo' & Hin & E)].
  - unfold cast_vote in H.
    destruct (lagrange_constant_term combo) as [w|e] eqn:E; [|auto].
    apply counter_incr_keys in H. destruct H as [->|H]; [|auto].
    right. exists combo. auto.
  - right. exists combo'. auto.
Qed.

Lemma tally_votes shares k v : counter_get v (tally shares k) = votes shares k v.
Proof. unfold tally, votes. now rewrite fold_cast_vote_get. Qed.

(** ** Combinations *)

Lemma combinations_spec (A : Type) (l : list A) k combo :
  In combo (combinations l k) -> length combo = k /\ subseq combo l.
Proof.
  revert k combo. induction l as [|x l IH]; intros [|k] combo; simpl.
  - intros [<-|[]]. split; [reflexivity|constructor].
  - tauto.
  - intros [<-|[]]. split; [reflexivity|].
    constructor. clear. induction l; constructor; assumption.
  - rewrite in_app_iff, in_map_iff. intros [(c & <- & Hc)|Hc].
    + apply IH in Hc. destruct Hc as [<- Hs]. split; [reflexivity|].
      now constructor.
    + apply (IH (S k)) in Hc. destruct Hc as [Hlen Hs]. split; [assumption|].
      now constructor.
Qed.

(** ** The entry point past its two checks *)

Lemma solve_secret_checked shares n k :
  1 <= k <= n -> k <= Z.of_nat (length shares) ->
  solve_secret shares n k =
  match tally shares (Z.to_nat k) with
  | [] => Raise NoConsistentSecret
  | item :: rest => Ok (fst (max_by_count item rest))
  end.
Proof.
  intros Hk Hlen. unfold solve_secret.
  destruct (Z.leb_spec 1 k); [|lia]. destruct (Z.leb_spec k n); [|lia].
  destruct (Z.ltb_spec (Z.of_nat (length shares)) k); [lia|]. simpl.
  destruct (tally shares (Z.to_nat k)) as [|item rest]; simpl; [reflexivity|].
  now destruct (max_by_count item rest).
Qed.

Lemma solve_secret_ok shares n k v :
  solve_secret shares n k = Ok v ->
  exists count, In (v, count) (tally shares (Z.to_nat k)) /\
    forall item, In item (tally shares (Z.to_nat k)) -> snd item <= count.
Proof.
  unfold solve_secret.
  destruct (negb _); [discriminate|]. destruct (_ <? _); [discriminate|].
  simpl. destruct (tally shares (Z.to_nat k)) as [|item rest]; [discriminate|].
  simpl. pose proof (max_by_count_in item rest) as Hin.
  pose proof (max_by_count_max item rest) as Hmax.
  destruct (max_by_count item rest) as [w count]. intros [= ->].
  exists count. split; [assumption|]. intros it Hit. now apply Hmax.
Qed.

(** ** The consensus phase: results *)

(** C3. When the reconstruction returns [v], no candidate has more votes
    among the [k]-subsets than [v] has. *)
Theorem solve_secret_winner_is_maximum (shares : list point) (n k v : Z) :
  solve_secret shares n k = Ok v ->
  forall w, votes shares (Z.to_nat k) w <= votes shares (Z.to_nat k) v.
Proof.
  intros H w. apply solve_secret_ok in H. destruct H as (count & Hin & Hmax).
  assert (Hnd : NoDup (map fst (tally shares (Z.to_nat k)))).
  { apply fold_cast_vote_NoDup. constructor. }
  rewrite <- !tally_votes. rewrite (counter_get_in _ _ _ Hnd Hin).
  destruct (in_dec Z.eq_dec w (map fst (tally shares (Z.to_nat k)))) as [Hw|Hw].
  - apply in_map_iff in Hw. destruct Hw as ([w' count'] & E & Hw').
    simpl in E. subst w'. rewrite (counter_get_in _ _ _ Hnd Hw').
    apply (Hmax (w, count') Hw').
  - rewrite (counter_get_absent _ _ Hw).
    rewrite <- (counter_get_in _ _ _ Hnd Hin), tally_votes. unfold votes. lia.
Qed.

Lemma solve_secret_winner_is_maximum_witness :
  solve_secret [(10, 25); (20, 45); (30, 120)] 3 2 = Ok 5 /\
  votes [(10, 25); (20, 45); (30, 120)] 2 (-105)
  <= votes [(10, 25); (20, 45); (30, 120)] 2 5.
Proof.
  split; [reflexivity|].
  apply (solve_secret_winner_is_maximum
           [(10, 25); (20, 45); (30, 120)] 3 2 5 eq_refl (-105)).
Defined.

(** C10. The value returned by the reconstruction is the result of the
    interpolator on some [k]-element selection of the shares. *)
Theorem solve_secret_winner_is_realized (shares : list point) (n k v : Z) :
  solve_secret shares n k = Ok v ->
  exists combo,
    In combo (combinations shares (Z.to_nat k)) /\
    length combo = Z.to_nat k /\ subseq combo shares /\
    lagrange_constant_term combo = Ok v.
Proof.
  intros H. apply solve_secret_ok in H. destruct H as (count & Hin & _).
  assert (Hkey : In v (map fst (tally shares (Z.to_nat k)))).
  { apply in_map_iff. now exists (v, count). }
  apply fold_cast_vote_keys in Hkey. destruct Hkey as [[]|(combo & Hc & E)].
  exists combo. destruct (combinations_spec _ _ _ _ Hc) as [Hlen Hsub]. auto.
Qed.

Lemma solve_secret_winner_is_realized_witness :
  solve_secret [(10, 25); (20, 45); (30, 120)] 3 2 = Ok 5 /\
  exists combo,
    In combo (combinations [(10, 25); (20, 45); (30, 120)] 2) /\
    length combo = 2%nat /\ subseq combo [(10, 25); (20, 45); (30, 120)] /\
    lagrange_constant_term combo = Ok 5.
Proof.
  split; [reflexivity|].
  apply (solve_secret_winner_is_realized
           [(10, 25); (20, 45); (30, 120)] 3 2 5 eq_refl).
Defined.

(** C4. Past the parameter and count checks, a subset on which the
    interpolator raises casts no vote and the exception goes no further: the
    tally is the one of the successful results alone, it is empty exactly
    when the interpolator raises on every [k]-subset, and the reconstruction
    then fails with NoConsistentSecret; otherwise it returns an integer. *)
Theorem solve_secret_absorbs_failures (shares : list point) (n k : Z) :
  1 <= k <= n -> k <= Z.of_nat (length shares) ->
  let combos := combinations shares (Z.to_nat k) in
  let all_fail := forall combo, In combo combos ->
                    exists e, lagrange_constant_term combo = Raise e in
  tally shares (Z.to_nat k)
    = fold_left (fun c v => counter_incr v c) (successes combos) [] /\
  (tally shares (Z.to_nat k) = [] <-> all_fail) /\
  (solve_secret shares n k = Raise NoConsistentSecret <-> all_fail) /\
  (~ all_fail -> exists v, solve_secret shares n k = Ok v) /\
  (solve_secret shares n k = Raise NoConsistentSecret \/
   exists v, solve_secret shares n k = Ok v).
Proof.
  intros Hk Hlen combos all_fail.
  assert (Ht : tally shares (Z.to_nat k)
               = fold_left (fun c v => counter_incr v c) (successes combos) []).
  { apply fold_cast_vote_successes. }
  assert (He : tally shares (Z.to_nat k) = [] <-> all_fail).
  { rewrite Ht, fold_incr_nil. unfold all_fail. rewrite <- successes_nil.
    tauto. }
  rewrite (solve_secret_checked _ _ _ Hk Hlen).
  split; [assumption|]. split; [assumption|].
  destruct (tally shares (Z.to_nat k)) as [|item rest].
  - split; [tauto|]. split; [|now left].
    intros Hn. exfalso. apply Hn, He. reflexivity.
  - split; [|split].
    + split; [discriminate|]. intros Ha. apply He in Ha. discriminate.
    + intros _. now exists (fst (max_by_count item rest)).
    + right. now exists (fst (max_by_count item rest)).
Qed.

Lemma solve_secret_absorbs_failures_witness :
  1 <= 2 <= 3 /\ 2 <= Z.of_nat (length [(10, 25); (20, 45); (30, 120)]) /\
  lagrange_constant_term [(10, 25); (30, 120)] = Raise NonIntegerResult /\
  tally [(10, 25); (20, 45); (30, 120)] 2
    = fold_left (fun c v => counter_incr v c)
        (successes (combinations [(10, 25); (20, 45); (30, 120)] 2)) [].
Proof.
  assert (Hk : 1 <= 2 <= 3) by (split; discriminate).
  assert (Hlen : 2 <= Z.of_nat (length [(10, 25); (20, 45); (30, 120)]))
    by discriminate.
  split; [exact Hk|]. split; [exact Hlen|]. split; [reflexivity|].
  exact (proj1 (solve_secret_absorbs_failures
                  [(10, 25); (20, 45); (30, 120)] 3 2 Hk Hlen)).
Defined.

(** C6 (amended). With fewer shares than [k] the reconstruction never
    returns a value: it fails with InvalidParameters when [k] is outside
    [1, n] for the declared [n], and with InsufficientShares otherwise. For
    the shares (1,10), (2,20) and [k = 3] that is InsufficientShares as soon
    as the declared [n] is at least 3. *)
Theorem solve_secret_too_few_shares (shares : list point) (n k : Z) :
  Z.of_nat (length shares) < k ->
  solve_secret shares n k
    = (if (1 <=? k) && (k <=? n) then Raise InsufficientShares
       else Raise InvalidParameters) /\
  (3 <= n -> solve_secret [(1, 10); (2, 20)] n 3 = Raise InsufficientShares).
Proof.
  intros Hlen. split.
  - unfold solve_secret. destruct ((1 <=? k) && (k <=? n)); simpl; [|reflexivity].
    destruct (Z.ltb_spec (Z.of_nat (length shares)) k); [reflexivity|lia].
  - intros Hn. unfold solve_secret.
    destruct (Z.leb_spec 3 n); [reflexivity|lia].
Qed.

Lemma solve_secret_too_few_shares_witness :
  Z.of_nat (length [(1, 10); (2, 20)]) < 3 /\
  solve_secret [(1, 10); (2, 20)] 5 3 = Raise InsufficientShares.
Proof.
  assert (Hlen : Z.of_nat (length [(1, 10); (2, 20)]) < 3) by reflexivity.
  split; [exact Hlen|].
  exact (proj1 (solve_secret_too_few_shares [(1, 10); (2, 20)] 5 3 Hlen)).
Defined.

(** C6, as stated, fails: with the two shares (1,10), (2,20) declared as
    [n = 2] and [k = 3], the parameter check comes first and raises
    InvalidParameters. *)
Lemma solve_secret_too_few_shares_invalid_parameters :
  Z.of_nat (length [(1, 10); (2, 20)]) < 3 /\
  solve_secret [(1, 10); (2, 20)] 2 3 = Raise InvalidParameters /\
  solve_secret [(1, 10); (2, 20)] 2 3 <> Raise InsufficientShares.
Proof. split; [reflexivity|]. split; [reflexivity|discriminate]. Qed.

(** C7. Scenario A: the shares (1,300), (2,250), (3,60), (4,30), (5,6000)
    with [k = 3] reconstruct to 210, the constant term of
    [-70 x^2 + 160 x + 210], of which the first three are sample points. *)
Theorem solve_secret_scenario_A :
  solve_secret [(1, 300); (2, 250); (3, 60); (4, 30); (5, 6000)] 5 3 = Ok 210 /\
  samples [210; 160; -70] [1; 2; 3] = [(1, 300); (2, 250); (3, 60)] /\
  lagrange_constant_term [(1, 300); (2, 250); (3, 60)] = Ok 210.
Proof. repeat split; vm_compute; reflexivity. Qed.

(** C8. Scenario B: the shares (10,25), (20,45), (30,120), in that order,
    with [k = 2] reconstruct to 5. The first pair votes 5, the second is
    dropped as non-integer, the third votes -105; the two candidates tie with
    one vote each and the first one counted wins. *)
Theorem solve_secret_scenario_B :
  solve_secret [(10, 25); (20, 45); (30, 120)] 3 2 = Ok 5 /\
  combinations [(10, 25); (20, 45); (30, 120)] 2
    = [[(10, 25); (20, 45)]; [(10, 25); (30, 120)]; [(20, 45); (30, 120)]] /\
  lagrange_constant_term [(10, 25); (20, 45)] = Ok 5 /\
  lagrange_constant_term [(10, 25); (30, 120)] = Raise NonIntegerResult /\
  lagrange_constant_term [(20, 45); (30, 120)] = Ok (-105) /\
  tally [(10, 25); (20, 45); (30, 120)] 2 = [(5, 1); (-105, 1)].
Proof. repeat split; vm_compute; reflexivity. Qed.

(** ** The arithmetic helpers: results *)

Lemma fold_add_sumZ l a : fold_left Z.add l a = a + sumZ l.
Proof.
  revert a. induction l as [|x l IH]; intros a; simpl; [ring|].
  rewrite IH. ring.
Qed.

Lemma fold_mul_prodZ l a : fold_left Z.mul l a = a * prodZ l.
Proof.
  revert a. induction l as [|x l IH]; intros a; simpl; [ring|].
  rewrite IH. ring.
Qed.

Lemma sumZ_Permutation l l' : Permutation l l' -> sumZ l = sumZ l'.
Proof. induction 1; simpl; lia. Qed.

Lemma prodZ_Permutation l l' : Permutation l l' -> prodZ l = prodZ l'.
Proof.
  induction 1 as [|x l l' _ IH|x y l|l l' l'' _ IH1 _ IH2]; simpl.
  - reflexivity.
  - now rewrite IH.
  - ring.
  - now rewrite IH1.
Qed.

(** The loop of [_hcf] ends on a greatest common divisor of the value it
    started from and the values it met. *)
Lemma fold_gcd_spec rest a :
  (fold_left Z.gcd rest a | a) /\
  (forall x, In x rest -> (fold_left Z.gcd rest a | x)) /\
  (forall d, (d | a) -> (forall x, In x rest -> (d | x)) ->
             (d | fold_left Z.gcd rest a)).
Proof.
  revert a. induction rest as [|b rest IH]; intros a; simpl.
  - split; [apply Z.divide_refl|]. split; [tauto|auto].
  - destruct (IH (Z.gcd a b)) as (H1 & H2 & H3). split; [|split].
    + eapply Z.divide_trans; [exact H1|apply Z.gcd_divide_l].
    + intros x [<-|Hx]; [|auto].
      eapply Z.divide_trans; [exact H1|apply Z.gcd_divide_r].
    + intros d Ha Hd. apply H3; [|auto]. apply Z.gcd_greatest; auto.
Qed.

Lemma fold_gcd_nonneg rest a : 0 <= a -> 0 <= fold_left Z.gcd rest a.
Proof.
  revert a. induction rest as [|b rest IH]; intros a Ha; simpl; [assumption|].
  apply IH, Z.gcd_nonneg.
Qed.

(** A turn of the loop of [_lcm] computes the least common multiple. *)
Lemma lcm_step_lcm a b : lcm_step a b = Z.lcm a b.
Proof.
  unfold lcm_step.
  destruct (Z.eqb_spec a 0) as [->|Ha]; simpl; [now rewrite Z.lcm_0_l|].
  destruct (Z.eqb_spec b 0) as [->|Hb]; simpl; [now rewrite Z.lcm_0_r|].
  unfold Z.lcm.
  assert (Hg : Z.gcd a b <> 0).
  { intros E. apply Z.gcd_eq_0_l in E. contradiction. }
  destruct (Z.gcd_divide_r a b) as [q Hq].
  rewrite Hq at 1 3.
  rewrite Z.div_mul by assumption.
  rewrite Z.mul_assoc, Z.abs_mul.
  rewrite (Z.abs_eq (Z.gcd a b)) by apply Z.gcd_nonneg.
  now rewrite Z.div_mul.
Qed.

Lemma fold_lcm_step rest a :
  fold_left lcm_step rest a = fold_left Z.lcm rest a.
Proof.
  revert a. induction rest as [|b rest IH]; intros a; simpl; [reflexivity|].
  now rewrite lcm_step_lcm, IH.
Qed.

Lemma fold_lcm_spec rest a :
  (a | fold_left Z.lcm rest a) /\
  (forall x, In x rest -> (x | fold_left Z.lcm rest a)) /\
  (forall m, (a | m) -> (forall x, In x rest -> (x | m)) ->
             (fold_left Z.lcm rest a | m)).
Proof.
  revert a. induction rest as [|b rest IH]; intros a; simpl.
  - split; [apply Z.divide_refl|]. split; [tauto|auto].
  - destruct (IH (Z.lcm a b)) as (H1 & H2 & H3). split; [|split].
    + eapply Z.divide_trans; [apply Z.divide_lcm_l|exact H1].
    + intros x [<-|Hx]; [|auto].
      eapply Z.divide_trans; [apply Z.divide_lcm_r|exact H1].
    + intros m Ha Hm. apply H3; [|auto]. apply Z.lcm_least; auto.
Qed.

Lemma fold_lcm_nonneg rest a : 0 <= a -> 0 <= fold_left Z.lcm rest a.
Proof.
  revert a. induction rest as [|b rest IH]; intros a Ha; simpl; [assumption|].
  apply IH, Z.lcm_nonneg.
Qed.

Lemma fold_lcm_zero rest a :
  fold_left Z.lcm rest a = 0 <-> a = 0 \/ In 0 rest.
Proof.
  revert a. induction rest as [|b rest IH]; intros a; simpl; [tauto|].
  rewrite IH, Z.lcm_eq_0. intuition.
Qed.

Lemma hcf_value first rest :
  let g := fold_left Z.gcd rest first in
  (forall x, In x (first :: rest) -> (g | x)) /\
  (forall d, (forall x, In x (first :: rest) -> (d | x)) -> (d | g)).
Proof.
  destruct (fold_gcd_spec rest first) as (H1 & H2 & H3). simpl. split.
  - intros x [<-|Hx]; auto.
  - intros d Hd. apply H3; auto.
Qed.

Lemma lcm_value first rest :
  let l := fold_left Z.lcm rest first in
  (forall x, In x (first :: rest) -> (x | l)) /\
  (forall m, (forall x, In x (first :: rest) -> (x | m)) -> (l | m)).
Proof.
  destruct (fold_lcm_spec rest first) as (H1 & H2 & H3). simpl. split.
  - intros x [<-|Hx]; auto.
  - intros m Hm. apply H3; auto.
Qed.

Lemma hcf_Permutation args args' :
  Permutation args args' -> _hcf args = _hcf args'.
Proof.
  intros HP. pose proof (Permutation_length HP) as Hlen.
  destruct args as [|a [|b rest]].
  - apply Permutation_nil in HP. now subst.
  - apply Permutation_length_1_inv in HP. now subst.
  - destruct args' as [|a' [|b' rest']]; try discriminate Hlen.
    unfold _hcf. f_equal.
    destruct (hcf_value a (b :: rest)) as [D G].
    destruct (hcf_value a' (b' :: rest')) as [D' G'].
    apply Z.divide_antisym_nonneg.
    + simpl. apply fold_gcd_nonneg, Z.gcd_nonneg.
    + simpl. apply fold_gcd_nonneg, Z.gcd_nonneg.
    + apply G'. intros x Hx. apply D.
      apply (Permutation_in x (Permutation_sym HP) Hx).
    + apply G. intros x Hx. apply D'. apply (Permutation_in x HP Hx).
Qed.

Lemma lcm_Permutation args args' :
  Permutation args args' -> _lcm args = _lcm args'.
Proof.
  intros HP. pose proof (Permutation_length HP) as Hlen.
  destruct args as [|a [|b rest]].
  - apply Permutation_nil in HP. now subst.
  - apply Permutation_length_1_inv in HP. now subst.
  - destruct args' as [|a' [|b' rest']]; try discriminate Hlen.
    unfold _lcm. rewrite !fold_lcm_step. f_equal.
    destruct (lcm_value a (b :: rest)) as [D G].
    destruct (lcm_value a' (b' :: rest')) as [D' G'].
    apply Z.divide_antisym_nonneg.
    + simpl. apply fold_lcm_nonneg, Z.lcm_nonneg.
    + simpl. apply fold_lcm_nonneg, Z.lcm_nonneg.
    + apply G. intros x Hx. apply D'. apply (Permutation_in x HP Hx).
    + apply G'. intros x Hx. apply D.
      apply (Permutation_in x (Permutation_sym HP) Hx).
Qed.

(** X1. On at least one argument [_hcf] returns a greatest common divisor
    of its arguments: it divides each of them, and every common divisor
    divides it. *)
Theorem hcf_greatest_common_divisor (args : list Z) :
  args <> [] ->
  exists g, _hcf args = Value g /\
    (forall x, In x args -> (g | x)) /\
    (forall d, (forall x, In x args -> (d | x)) -> (d | g)).
Proof.
  destruct args as [|first rest]; [congruence|]. intros _.
  exists (fold_left Z.gcd rest first). split; [reflexivity|].
  apply hcf_value.
Qed.

Lemma hcf_greatest_common_divisor_witness :
  [120; 180] <> [] /\
  exists g, _hcf [120; 180] = Value g /\
    (forall x, In x [120; 180] -> (g | x)) /\
    (forall d, (forall x, In x [120; 180] -> (d | x)) -> (d | g)).
Proof.
  assert (H : [120; 180] <> []) by discriminate.
  split; [exact H|]. exact (hcf_greatest_common_divisor [120; 180] H).
Defined.

(** X2. On two or more arguments the result of [_hcf] is not negative,
    whatever the signs of the arguments. *)
Theorem hcf_nonnegative (args : list Z) :
  (2 <= length args)%nat -> exists g, _hcf args = Value g /\ 0 <= g.
Proof.
  destruct args as [|a [|b rest]]; simpl; try lia. intros _.
  eexists. split; [reflexivity|]. apply fold_gcd_nonneg, Z.gcd_nonneg.
Qed.

Lemma hcf_nonnegative_witness :
  (2 <= length [-12; 18]%Z)%nat /\
  exists g, _hcf [-12; 18] = Value g /\ 0 <= g.
Proof.
  assert (H : (2 <= length [-12; 18]%Z)%nat) by apply le_n.
  split; [exact H|]. exact (hcf_nonnegative [-12; 18] H).
Defined.

(** X3. On at least one argument [_lcm] returns a least common multiple of
    its arguments: each of them divides it, and it divides every common
    multiple. *)
Theorem lcm_least_common_multiple (args : list Z) :
  args <> [] ->
  exists l, _lcm args = Value l /\
    (forall x, In x args -> (x | l)) /\
    (forall m, (forall x, In x args -> (x | m)) -> (l | m)).
Proof.
  destruct args as [|first rest]; [congruence|]. intros _.
  exists (fold_left Z.lcm rest first). split.
  - unfold _lcm. now rewrite fold_lcm_step.
  - apply lcm_value.
Qed.

Lemma lcm_least_common_multiple_witness :
  [10; 15] <> [] /\
  exists l, _lcm [10; 15] = Value l /\
    (forall x, In x [10; 15] -> (x | l)) /\
    (forall m, (forall x, In x [10; 15] -> (x | m)) -> (l | m)).
Proof.
  assert (H : [10; 15] <> []) by discriminate.
  split; [exact H|]. exact (lcm_least_common_multiple [10; 15] H).
Defined.

(** X4. The value returned by [_lcm] is zero exactly when one of the
    arguments is zero. *)
Theorem lcm_zero_iff (args : list Z) (l : Z) :
  _lcm args = Value l -> (l = 0 <-> In 0 args).
Proof.
  destruct args as [|first rest]; [discriminate|].
  unfold _lcm. rewrite fold_lcm_step. intros [= <-].
  rewrite fold_lcm_zero. simpl. intuition.
Qed.

Lemma lcm_zero_iff_witness :
  _lcm [4; 0; 6] = Value 0 /\ (0 = 0 <-> In 0 [4; 0; 6]).
Proof.
  split; [reflexivity|]. exact (lcm_zero_iff [4; 0; 6] 0 eq_refl).
Defined.

(** X5. None of the four helpers depends on the order of its arguments. *)
Theorem helpers_order_independent (args args' : list Z) :
  Permutation args args' ->
  _sum args = _sum args' /\ _multiply args = _multiply args' /\
  _hcf args = _hcf args' /\ _lcm args = _lcm args'.
Proof.
  intros HP. unfold _sum, _multiply.
  rewrite !fold_add_sumZ, !fold_mul_prodZ.
  rewrite (sumZ_Permutation _ _ HP), (prodZ_Permutation _ _ HP).
  split; [reflexivity|]. split; [reflexivity|].
  split; [now apply hcf_Permutation|now apply lcm_Permutation].
Qed.

Lemma helpers_order_independent_witness :
  Permutation [10; 15; 4] [15; 10; 4] /\
  _lcm [10; 15; 4] = _lcm [15; 10; 4].
Proof.
  assert (H : Permutation [10; 15; 4] [15; 10; 4]) by apply perm_swap.
  split; [exact H|].
  exact (proj2 (proj2 (proj2 (helpers_order_independent _ _ H)))).
Defined.

(** ** Resolving the shares: results *)

Lemma process_shares_spec `{StrOps} `{Stdout} raw_shares processed_shares :
  process_shares raw_shares processed_shares
  = if forallb passes raw_shares
    then Processed (processed_shares ++ resolved raw_shares)
    else PrintRaised.
Proof.
  revert processed_shares.
  induction raw_shares as [|[x_str func] raw IH]; intros acc.
  - simpl. now rewrite app_nil_r.
  - cbn [process_shares forallb]. unfold passes at 1, resolvable, resolved.
    cbn [flat_map fst snd].
    destruct (resolve_share x_str func) as [share|].
    + rewrite IH. cbn [orb andb]. destruct (forallb passes raw); [|reflexivity].
      unfold resolved. now rewrite <- app_assoc.
    + cbn [orb]. destruct (print_warning x_str func); cbn [andb];
        [|reflexivity].
      rewrite IH. reflexivity.
Qed.

Lemma resolved_resolvable `{StrOps} raw_shares :
  resolved (filter resolvable raw_shares) = resolved raw_shares.
Proof.
  unfold resolved.
  induction raw_shares as [|item raw IH]; simpl; [reflexivity|].
  unfold resolvable at 1.
  destruct (resolve_share (fst item) (snd item)) eqn:E; simpl.
  - now rewrite E, IH.
  - exact IH.
Qed.

Lemma length_resolved `{StrOps} raw_shares :
  length (resolved raw_shares) = length (filter resolvable raw_shares).
Proof.
  unfold resolved.
  induction raw_shares as [|item raw IH]; simpl; [reflexivity|].
  unfold resolvable at 1.
  destruct (resolve_share (fst item) (snd item)); simpl; now rewrite IH.
Qed.

Lemma in_resolved `{StrOps} raw_shares share :
  In share (resolved raw_shares) <->
  exists item, In item raw_shares /\
               resolve_share (fst item) (snd item) = Some share.
Proof.
  unfold resolved. rewrite in_flat_map.
  split; intros (item & Hin & Hr); exists item; (split; [assumption|]);
    destruct (resolve_share (fst item) (snd item)) as [p|].
  - destruct Hr as [->|[]]. reflexivity.
  - destruct Hr.
  - injection Hr as ->. now left.
  - discriminate.
Qed.

Lemma passes_resolvable `{StrOps} `{Stdout} raw_shares :
  forallb passes (filter resolvable raw_shares) = true.
Proof.
  apply forallb_forall. intros item Hin. apply filter_In in Hin.
  unfold passes. destruct Hin as [_ ->]. reflexivity.
Qed.

(** X6. An expression with no arguments reaches the helper with an empty
    argument list: as [sum] it is worth 0, as [multiply] 1, and as [hcf] or
    [lcm] it raises the helper's own error. *)
Theorem compute_share_value_no_arguments `{StrOps}
    (func_str group1 args_str : String.string) :
  re_match_call func_str = Some (group1, args_str) ->
  str_strip args_str = ""%string ->
  (str_lower group1 = "sum"%string ->
   compute_share_value func_str = Value 0) /\
  (str_lower group1 = "multiply"%string ->
   compute_share_value func_str = Value 1) /\
  (str_lower group1 = "hcf"%string ->
   compute_share_value func_str = ValueError HcfNoArguments) /\
  (str_lower group1 = "lcm"%string ->
   compute_share_value func_str = ValueError LcmNoArguments).
Proof.
  intros Hm Hs. unfold compute_share_value. rewrite Hm, Hs.
  repeat split; intros ->; reflexivity.
Qed.

Lemma compute_share_value_no_arguments_witness :
  @re_match_call example_ops "hcf()"%string = Some ("hcf", "")%string /\
  @str_strip example_ops ""%string = ""%string /\
  @str_lower example_ops "hcf"%string = "hcf"%string /\
  @compute_share_value example_ops "hcf()"%string = ValueError HcfNoArguments.
Proof.
  split; [reflexivity|]. split; [reflexivity|]. split; [reflexivity|].
  exact (proj1 (proj2 (proj2
    (@compute_share_value_no_arguments example_ops
       "hcf()"%string "hcf"%string ""%string eq_refl eq_refl))) eq_refl).
Defined.

(** X7. The name of the function is checked before the arguments are read:
    an expression whose name is none of [sum], [multiply], [hcf], [lcm]
    raises UnsupportedFunction, whether or not its arguments are integers. *)
Theorem compute_share_value_unsupported `{StrOps}
    (func_str group1 args_str : String.string) :
  re_match_call func_str = Some (group1, args_str) ->
  ~ In (str_lower group1) ["sum"; "multiply"; "hcf"; "lcm"]%string ->
  compute_share_value func_str = ValueError UnsupportedFunction.
Proof.
  intros Hm Hn. unfold compute_share_value. rewrite Hm.
  unfold FUNCTION_MAP, dict_get.
  repeat match goal with
  | |- context [String.eqb ?a ?b] =>
      destruct (String.eqb_spec a b) as [E|_];
        [exfalso; apply Hn; rewrite <- E; simpl; tauto|]
  end.
  reflexivity.
Qed.

Lemma compute_share_value_unsupported_witness :
  @re_match_call example_ops "power(2,x)"%string
    = Some ("power", "2,x")%string /\
  ~ In (@str_lower example_ops "power"%string)
       ["sum"; "multiply"; "hcf"; "lcm"]%string /\
  @compute_share_value example_ops "power(2,x)"%string
    = ValueError UnsupportedFunction.
Proof.
  assert (Hn : ~ In (@str_lower example_ops "power"%string)
                    ["sum"; "multiply"; "hcf"; "lcm"]%string).
  { simpl. intros H. repeat destruct H as [H|H]; try discriminate H; exact H. }
  split; [reflexivity|]. split; [exact Hn|].
  exact (@compute_share_value_unsupported example_ops
           "power(2,x)"%string "power"%string "2,x"%string eq_refl Hn).
Defined.

(** X8. The share loop stops with the exception of [print] when the
    warning of some item that does not resolve cannot be printed; otherwise
    it ends with, in the order of the document, exactly the shares of the
    items whose key is an integer and whose expression resolves: a point is
    among the processed shares if and only if some item resolves to it, and
    there are as many processed shares as resolvable items. *)
Theorem process_shares_resolved `{StrOps} `{Stdout}
    (raw_shares : list (String.string * raw_value)) :
  process_shares raw_shares []
  = (if forallb passes raw_shares then Processed (resolved raw_shares)
     else PrintRaised) /\
  forall shares, process_shares raw_shares [] = Processed shares ->
    (forall share, In share shares <->
       exists item, In item raw_shares /\
                    resolve_share (fst item) (snd item) = Some share) /\
    length shares = length (filter resolvable raw_shares) /\
    (length shares <= length raw_shares)%nat.
Proof.
  rewrite process_shares_spec. cbn [app]. split; [reflexivity|].
  intros shares. destruct (forallb passes raw_shares); [|discriminate].
  intros [= <-]. split; [|split].
  - intros share. apply in_resolved.
  - apply length_resolved.
  - rewrite length_resolved. apply filter_length_le.
Qed.

Lemma process_shares_resolved_witness :
  @process_shares example_ops example_stdout
     [ ("1", RawString "sum(100,200)"); ("2", RawString "power(2,x)");
       ("3", RawOther) ]%string [] = Processed [(1, 300)] /\
  @process_shares example_ops failing_stdout
     [ ("1", RawString "sum(100,200)"); ("2", RawString "power(2,x)");
       ("3", RawOther) ]%string [] = PrintRaised /\
  length [(1, 300)]
  = length (filter (@resolvable example_ops)
      [ ("1", RawString "sum(100,200)"); ("2", RawString "power(2,x)");
        ("3", RawOther) ]%string).
Proof.
  split; [reflexivity|]. split; [reflexivity|].
  exact (proj1 (proj2 (proj2 (@process_shares_resolved example_ops example_stdout
    [ ("1", RawString "sum(100,200)"); ("2", RawString "power(2,x)");
      ("3", RawOther) ]%string) [(1, 300)] eq_refl))).
Defined.

(** X9. When the run is not cut short by a [print], items that do not
    resolve count for nothing: taking them out of the document leaves the
    result of the reconstruction unchanged. *)
Theorem solve_secret_raw_ignores_unresolved `{StrOps} `{Stdout}
    (raw_shares : list (String.string * raw_value)) (n k : Z) (r : result Z) :
  solve_secret_raw raw_shares n k = Finished r ->
  solve_secret_raw (filter resolvable raw_shares) n k = Finished r.
Proof.
  unfold solve_secret_raw. destruct (negb _); [trivial|].
  rewrite !process_shares_spec, passes_resolvable, resolved_resolvable.
  destruct (forallb passes raw_shares); [trivial|discriminate].
Qed.

Lemma solve_secret_raw_ignores_unresolved_witness :
  @solve_secret_raw example_ops example_stdout
     [ ("1", RawString "sum(100,200)"); ("2", RawString "power(2,x)");
       ("3", RawOther) ]%string 1 1 = Finished (Ok 300) /\
  @solve_secret_raw example_ops example_stdout
     (filter (@resolvable example_ops)
        [ ("1", RawString "sum(100,200)"); ("2", RawString "power(2,x)");
          ("3", RawOther) ]%string) 1 1 = Finished (Ok 300).
Proof.
  split; [reflexivity|].
  exact (@solve_secret_raw_ignores_unresolved example_ops example_stdout
           [ ("1", RawString "sum(100,200)"); ("2", RawString "power(2,x)");
             ("3", RawOther) ]%string 1 1 (Ok 300) eq_refl).
Defined.

(** X10. When [k] is within [1, n] but fewer than [k] items of the document
    resolve, however many items the document holds, the reconstruction
    fails with InsufficientShares if the warning of every item that does
    not resolve prints, and with the exception of [print] otherwise. *)
Theorem solve_secret_raw_too_few_resolved `{StrOps} `{Stdout}
    (raw_shares : list (String.string * raw_value)) (n k : Z) :
  1 <= k <= n ->
  Z.of_nat (length (filter resolvable raw_shares)) < k ->
  solve_secret_raw raw_shares n k
  = if forallb passes raw_shares then Finished (Raise InsufficientShares)
    else Aborted.
Proof.
  intros Hk Hlen. unfold solve_secret_raw.
  destruct (Z.leb_spec 1 k); [|lia]. destruct (Z.leb_spec k n); [|lia].
  cbn [andb negb]. rewrite process_shares_spec. cbn [app].
  destruct (forallb passes raw_shares); [|reflexivity].
  unfold solve_secret. rewrite length_resolved.
  destruct (Z.leb_spec 1 k); [|lia]. destruct (Z.leb_spec k n); [|lia].
  cbn [andb negb].
  destruct (Z.ltb_spec (Z.of_nat (length (filter resolvable raw_shares))) k);
    [reflexivity|lia].
Qed.

Lemma solve_secret_raw_too_few_resolved_witness :
  1 <= 3 <= 3 /\
  Z.of_nat (length (filter (@resolvable example_ops)
     [ ("1", RawString "sum(100,200)"); ("2", RawString "power(2,x)");
       ("3", RawOther) ]%string)) < 3 /\
  @solve_secret_raw example_ops example_stdout
     [ ("1", RawString "sum(100,200)"); ("2", RawString "power(2,x)");
       ("3", RawOther) ]%string 3 3 = Finished (Raise InsufficientShares).
Proof.
  assert (Hk : 1 <= 3 <= 3) by (split; discriminate).
  assert (Hlen : Z.of_nat (length (filter (@resolvable example_ops)
     [ ("1", RawString "sum(100,200)"); ("2", RawString "power(2,x)");
       ("3", RawOther) ]%string)) < 3) by reflexivity.
  split; [exact Hk|]. split; [exact Hlen|].
  exact (@solve_secret_raw_too_few_resolved example_ops example_stdout _ 3 3
           Hk Hlen).
Defined.

(** ** The interpolator: what the y-coordinates cannot change *)

Lemma existsb_pointwise (A : Type) (f g : A -> bool) l :
  (forall a, f a = g a) -> existsb f l = existsb g l.
Proof.
  intros E. induction l as [|a l IH]; simpl; [reflexivity|].
  now rewrite E, IH.
Qed.

Section SameAbscissas.

Variables points points' : list point.
Hypothesis same_x : map fst points = map fst points'.

Lemma same_x_length : length points = length points'.
Proof.
  pose proof (f_equal (@length Z) same_x) as E.
  rewrite !length_map in E. exact E.
Qed.

Lemma same_x_at m : x_at points m = x_at points' m.
Proof. now rewrite !x_at_map_fst, same_x. Qed.

Lemma same_x_clash j : clash points j = clash points' j.
Proof.
  unfold clash. rewrite same_x_length. apply existsb_pointwise.
  intros m. now rewrite !same_x_at.
Qed.

Lemma same_x_numerator j : numerator points j = numerator points' j.
Proof.
  unfold numerator. rewrite same_x_length. f_equal.
  apply map_ext. intros m. now rewrite same_x_at.
Qed.

Lemma same_x_denominator j : denominator points j = denominator points' j.
Proof.
  unfold denominator. rewrite same_x_length. f_equal.
  apply map_ext. intros m. now rewrite !same_x_at.
Qed.

Lemma same_x_exact j : exact points j = exact points' j.
Proof. unfold exact. now rewrite same_x_numerator, same_x_denominator. Qed.

Lemma same_x_term_loop_raise js secret secret' e :
  Forall (fun j => (j < length points)%nat) js ->
  term_loop points js secret = Raise e ->
  term_loop points' js secret' = Raise e.
Proof.
  intros H. revert secret secret'.
  induction H as [|j js Hj _ IH]; intros secret secret'; [discriminate|].
  rewrite !term_loop_step by (rewrite <- ?same_x_length; assumption).
  rewrite <- same_x_clash, <- same_x_exact.
  destruct (clash points j); [trivial|].
  destruct (exact points j); [apply IH|trivial].
Qed.

End SameAbscissas.

Lemma lagrange_formula_linear (points points' points'' : list point) (a b : Z) :
  map fst points'' = map fst points -> map fst points'' = map fst points' ->
  (forall j, y_at points'' j = a * y_at points j + b * y_at points' j) ->
  lagrange_formula points''
  = a * lagrange_formula points + b * lagrange_formula points'.
Proof.
  intros Hx Hx' Hy. unfold lagrange_formula.
  rewrite <- (same_x_length _ _ Hx), <- (same_x_length _ _ Hx').
  induction (seq 0 (length points'')) as [|j l IH]; simpl; [ring|].
  rewrite IH, Hy.
  rewrite <- (same_x_numerator _ _ Hx), <- (same_x_denominator _ _ Hx).
  rewrite <- (same_x_numerator _ _ Hx'), <- (same_x_denominator _ _ Hx').
  ring.
Qed.

(** X11. The interpolator has three outcomes only: a value,
    DuplicateAbscissa or NonIntegerResult. The zero-denominator safeguard
    never fires and no index is ever out of range. *)
Theorem lagrange_constant_term_outcomes (points : list point) :
  (exists v, lagrange_constant_term points = Ok v) \/
  lagrange_constant_term points = Raise DuplicateAbscissa \/
  lagrange_constant_term points = Raise NonIntegerResult.
Proof.
  destruct (lagrange_constant_term points) as [v|e] eqn:E.
  - left. now exists v.
  - right. apply lagrange_raise in E. destruct E as [[-> _]|[-> _]]; auto.
Qed.

(** X12. Whether the interpolator fails, and with which error, depends on
    the x-coordinates alone: two lists of points with the same
    x-coordinates in the same order raise the same errors, whatever their
    y-coordinates. *)
Theorem lagrange_constant_term_failure_by_abscissas
    (points points' : list point) (e : error) :
  map fst points = map fst points' ->
  (lagrange_constant_term points = Raise e <->
   lagrange_constant_term points' = Raise e).
Proof.
  intros Hx. unfold lagrange_constant_term. split; intros H.
  - rewrite <- (same_x_length _ _ Hx).
    apply (same_x_term_loop_raise _ _ Hx _ 0 0 e (seq_below _) H).
  - rewrite (same_x_length _ _ Hx).
    apply (same_x_term_loop_raise _ _ (eq_sym Hx) _ 0 0 e (seq_below _) H).
Qed.

Lemma lagrange_constant_term_failure_by_abscissas_witness :
  map fst [(10, 25); (30, 120)] = map fst [(10, 7); (30, -1)] /\
  lagrange_constant_term [(10, 25); (30, 120)] = Raise NonIntegerResult /\
  lagrange_constant_term [(10, 7); (30, -1)] = Raise NonIntegerResult.
Proof.
  split; [reflexivity|]. split; [reflexivity|].
  exact (proj1 (lagrange_constant_term_failure_by_abscissas
                  [(10, 25); (30, 120)] [(10, 7); (30, -1)]
                  NonIntegerResult eq_refl) eq_refl).
Defined.

(** X13. The interpolator is linear in the y-coordinates: when it returns
    [v] on the abscissas [xs] with values [ys] and [v'] with values [ys'],
    it returns [a * v + b * v'] with the values [a * y + b * y']. *)
Theorem lagrange_constant_term_linear (xs ys ys' : list Z) (a b v v' : Z) :
  length ys = length xs -> length ys' = length xs ->
  lagrange_constant_term (combine xs ys) = Ok v ->
  lagrange_constant_term (combine xs ys') = Ok v' ->
  lagrange_constant_term
    (combine xs (map (fun yy => a * fst yy + b * snd yy) (combine ys ys')))
  = Ok (a * v + b * v').
Proof.
  intros Hy Hy' H H'.
  set (ys'' := map (fun yy => a * fst yy + b * snd yy) (combine ys ys')).
  assert (Hy'' : length ys'' = length xs).
  { unfold ys''. rewrite length_map, length_combine. lia. }
  assert (Hfst : forall zs : list Z,
            length zs = length xs -> map fst (combine xs zs) = xs).
  { clear. induction xs as [|x l IH]; intros [|z zs]; simpl; try discriminate;
      [reflexivity|]. intros [= E]. now rewrite IH. }
  assert (Hsnd : forall (zs : list Z) j, length zs = length xs ->
                                         y_at (combine xs zs) j = nth j zs 0).
  { intros zs j E. unfold y_at, point.
    now rewrite (combine_nth xs zs j 0 0) by auto. }
  assert (Hx : map fst (combine xs ys'') = map fst (combine xs ys))
    by now rewrite !Hfst.
  assert (Hx' : map fst (combine xs ys'') = map fst (combine xs ys'))
    by now rewrite !Hfst.
  assert (Hlen : forall zs : list Z, length zs = length xs ->
                                     length (combine xs zs) = length xs).
  { intros zs E. rewrite length_combine. lia. }
  apply lagrange_ok in H, H'. destruct H as [Hc ->]. destruct H' as [_ ->].
  apply lagrange_ok. split.
  - intros j Hj. rewrite (same_x_clash _ _ Hx), (same_x_exact _ _ Hx).
    apply Hc. rewrite Hlen in * by assumption. assumption.
  - symmetry. apply lagrange_formula_linear; [assumption|assumption|].
    intros j. rewrite !Hsnd by assumption.
    destruct (Nat.lt_ge_cases j (length xs)) as [Hj|Hj].
    + unfold ys''.
      rewrite (nth_indep _ 0 (a * fst (0, 0) + b * snd (0, 0)))
        by (rewrite length_map, length_combine; lia).
      change (a * fst (0, 0) + b * snd (0, 0))
        with ((fun yy => a * fst yy + b * snd yy) (0, 0)).
      rewrite map_nth, combine_nth by lia. reflexivity.
    + rewrite !nth_overflow by lia. ring.
Qed.

Lemma lagrange_constant_term_linear_witness :
  lagrange_constant_term (combine [1; 2] [3; 5]) = Ok 1 /\
  lagrange_constant_term (combine [1; 2] [10; 10]) = Ok 10 /\
  lagrange_constant_term (combine [1; 2] [23; 25]) = Ok 21.
Proof.
  split; [reflexivity|]. split; [reflexivity|].
  exact (lagrange_constant_term_linear [1; 2] [3; 5] [10; 10] 1 2 1 10
           eq_refl eq_refl eq_refl eq_refl).
Defined.

(** ** The consensus phase: further results *)

Lemma subseq_NoDup (A : Type) (s l : list A) :
  subseq s l -> NoDup l -> NoDup s.
Proof.
  assert (Hin : forall (s l : list A), subseq s l ->
                                       forall a, In a s -> In a l).
  { induction 1 as [|x s' l' _ IH|x s' l' _ IH]; simpl; intros a Ha;
      [assumption|right; auto|destruct Ha; auto]. }
  induction 1 as [|x s' l' Hs IH|x s' l' Hs IH]; intros Hnd.
  - constructor.
  - inversion Hnd; auto.
  - inversion Hnd as [|? ? Hx Hl]; subst. constructor; [|auto].
    intros Ha. apply Hx. apply (Hin _ _ Hs _ Ha).
Qed.

Lemma subseq_samples coeffs xs combo :
  subseq combo (samples coeffs xs) ->
  exists xs', combo = samples coeffs xs' /\ subseq xs' xs.
Proof.
  revert combo. induction xs as [|x xs IH]; intros combo H; simpl in H.
  - inversion H; subst. exists []. split; [reflexivity|constructor].
  - inversion H as [|? ? ? Hs|? s' ? Hs]; subst.
    + destruct (IH _ Hs) as (xs' & -> & Hsub).
      exists xs'. split; [reflexivity|now constructor].
    + destruct (IH _ Hs) as (xs' & -> & Hsub).
      exists (x :: xs'). split; [reflexivity|now constructor].
Qed.

(** X14. On genuine shares, the sample points at pairwise distinct abscissas
    of a polynomial with integer coefficients of degree less than [k], the
    reconstruction never returns a wrong value: it returns the constant term
    or fails with NoConsistentSecret. *)
Theorem solve_secret_genuine_shares (coeffs xs : list Z) (n k : Z) :
  1 <= k <= n -> k <= Z.of_nat (length xs) ->
  (length coeffs <= Z.to_nat k)%nat -> NoDup xs ->
  solve_secret (samples coeffs xs) n k = Ok (hd 0 coeffs) \/
  solve_secret (samples coeffs xs) n k = Raise NoConsistentSecret.
Proof.
  intros Hk Hlen Hdeg Hnd.
  destruct (solve_secret (samples coeffs xs) n k) as [v|e] eqn:E.
  - left. f_equal. apply solve_secret_ok in E.
    destruct E as (count & Hin & _).
    assert (Hkey : In v (map fst (tally (samples coeffs xs) (Z.to_nat k)))).
    { apply in_map_iff. now exists (v, count). }
    apply fold_cast_vote_keys in Hkey. destruct Hkey as [[]|(combo & Hc & El)].
    destruct (combinations_spec _ _ _ _ Hc) as [Hl Hsub].
    destruct (subseq_samples _ _ _ Hsub) as (xs' & -> & Hsub').
    rewrite length_samples in Hl.
    apply lagrange_ok in El. destruct El as [Hex ->].
    apply lagrange_formula_samples.
    + lia.
    + apply (subseq_NoDup _ _ _ Hsub' Hnd).
    + intros j Hj. apply Hex. now rewrite length_samples.
  - right. f_equal. rewrite solve_secret_checked in E.
    + destruct (tally _ _); [now injection E|discriminate].
    + assumption.
    + now rewrite length_samples.
Qed.

Lemma solve_secret_genuine_shares_witness :
  1 <= 2 <= 3 /\ 2 <= Z.of_nat (length [2; 4; 6]%Z) /\
  (length [5; 2]%Z <= Z.to_nat 2)%nat /\ NoDup [2; 4; 6] /\
  (solve_secret (samples [5; 2] [2; 4; 6]) 3 2 = Ok (hd 0 [5; 2]) \/
   solve_secret (samples [5; 2] [2; 4; 6]) 3 2 = Raise NoConsistentSecret).
Proof.
  assert (Hk : 1 <= 2 <= 3) by (split; discriminate).
  assert (Hlen : 2 <= Z.of_nat (length [2; 4; 6]%Z)) by discriminate.
  assert (Hdeg : (length [5; 2]%Z <= Z.to_nat 2)%nat) by apply le_n.
  assert (Hnd : NoDup [2; 4; 6]).
  { repeat constructor; simpl; intros H; repeat destruct H as [H|H];
      try discriminate H; exact H. }
  split; [exact Hk|]. split; [exact Hlen|]. split; [exact Hdeg|].
  split; [exact Hnd|].
  exact (solve_secret_genuine_shares [5; 2] [2; 4; 6] 3 2 Hk Hlen Hdeg Hnd).
Defined.

Lemma counter_incr_positive key c :
  Forall (fun item => 1 <= snd item) c ->
  Forall (fun item => 1 <= snd item) (counter_incr key c).
Proof.
  induction 1 as [|[key' count] c Hc Hrest IH]; simpl.
  - repeat constructor. simpl. lia.
  - destruct (key' =? key); constructor; simpl in *; auto; lia.
Qed.

Lemma counter_incr_total key c :
  sumZ (map snd (counter_incr key c)) = sumZ (map snd c) + 1.
Proof.
  induction c as [|[key' count] c IH]; simpl; [reflexivity|].
  destruct (key' =? key); simpl; [|rewrite IH]; ring.
Qed.

Lemma fold_incr_invariants vs c :
  NoDup (map fst c) -> Forall (fun item => 1 <= snd item) c ->
  let c' := fold_left (fun c v => counter_incr v c) vs c in
  NoDup (map fst c') /\ Forall (fun item => 1 <= snd item) c' /\
  sumZ (map snd c') = sumZ (map snd c) + Z.of_nat (length vs).
Proof.
  revert c. induction vs as [|v vs IH]; intros c Hnd Hpos.
  - simpl. repeat split; auto. ring.
  - cbn [fold_left].
    destruct (IH (counter_incr v c)) as (H1 & H2 & H3).
    + now apply counter_incr_NoDup.
    + now apply counter_incr_positive.
    + repeat split; auto. rewrite H3, counter_incr_total.
      cbn [length]. lia.
Qed.

(** X15. The tally built by the voting loop keeps each candidate once, with
    a count of at least 1, and its counts add up to the number of subsets
    on which the interpolator returned a value. *)
Theorem tally_invariants (shares : list point) (k : nat) :
  NoDup (map fst (tally shares k)) /\
  Forall (fun item => 1 <= snd item) (tally shares k) /\
  sumZ (map snd (tally shares k))
  = Z.of_nat (length (successes (combinations shares k))).
Proof.
  unfold tally. rewrite fold_cast_vote_successes.
  destruct (fold_incr_invariants (successes (combinations shares k)) [])
    as (H1 & H2 & H3); [constructor|constructor|].
  split; [exact H1|]. split; [exact H2|]. rewrite H3. simpl. ring.
Qed.

Lemma combinations_zero (A : Type) (l : list A) : combinations l 0 = [[]].
Proof. now destruct l. Qed.

Lemma combinations_one (A : Type) (l : list A) :
  combinations l 1 = map (fun a => [a]) l.
Proof.
  induction l as [|a l IH]; simpl; [reflexivity|].
  now rewrite combinations_zero, IH.
Qed.

Lemma combinations_short (A : Type) (l : list A) k :
  (length l < k)%nat -> combinations l k = [].
Proof.
  revert k. induction l as [|a l IH]; intros [|k] H; simpl in *; try lia.
  - reflexivity.
  - rewrite (IH k), (IH (S k)) by lia. reflexivity.
Qed.

Lemma combinations_all (A : Type) (l : list A) :
  combinations l (length l) = [l].
Proof.
  induction l as [|a l IH]; simpl; [reflexivity|].
  rewrite IH, combinations_short by lia. reflexivity.
Qed.

Lemma lagrange_single (p : point) : lagrange_constant_term [p] = Ok (snd p).
Proof.
  destruct p as [x y]. apply lagrange_ok. split.
  - intros [|j] Hj; [|simpl in Hj; lia]. split; reflexivity.
  - unfold lagrange_formula, numerator, denominator, others, y_at. simpl.
    change (1 / 1) with 1. ring.
Qed.

Lemma votes_one shares w :
  votes shares 1 w = Z.of_nat (count_occ Z.eq_dec (map snd shares) w).
Proof.
  unfold votes. rewrite combinations_one. f_equal.
  induction shares as [|p shares IH]; simpl; [reflexivity|].
  unfold is_vote_for at 1. rewrite lagrange_single.
  destruct (Z.eqb_spec (snd p) w) as [E|E]; destruct (Z.eq_dec (snd p) w);
    try contradiction; simpl; now rewrite IH.
Qed.

(** The winner has the largest count of the tally. *)
Lemma solve_secret_counts shares n k v :
  solve_secret shares n k = Ok v ->
  forall w, counter_get w (tally shares (Z.to_nat k))
            <= counter_get v (tally shares (Z.to_nat k)).
Proof.
  intros H w. apply solve_secret_ok in H. destruct H as (count & Hin & Hmax).
  assert (Hnd : NoDup (map fst (tally shares (Z.to_nat k)))).
  { apply fold_cast_vote_NoDup. constructor. }
  assert (Hpos : Forall (fun item => 1 <= snd item) (tally shares (Z.to_nat k))).
  { unfold tally. rewrite fold_cast_vote_successes.
    apply fold_incr_invariants; constructor. }
  rewrite (counter_get_in _ _ _ Hnd Hin).
  destruct (in_dec Z.eq_dec w (map fst (tally shares (Z.to_nat k)))) as [Hw|Hw].
  - apply in_map_iff in Hw. destruct Hw as ([w' count'] & E & Hw').
    simpl in E. subst w'. rewrite (counter_get_in _ _ _ Hnd Hw').
    apply (Hmax (w, count') Hw').
  - rewrite (counter_get_absent _ _ Hw).
    rewrite Forall_forall in Hpos. specialize (Hpos _ Hin). simpl in Hpos. lia.
Qed.

(** X16. With [k = 1] every share votes for its own y-coordinate: on at
    least one share the reconstruction never fails, and it returns a
    y-coordinate that no other value outnumbers among the shares. *)
Theorem solve_secret_threshold_one (shares : list point) (n : Z) :
  1 <= n -> shares <> [] ->
  exists v, solve_secret shares n 1 = Ok v /\ In v (map snd shares) /\
    forall w, (count_occ Z.eq_dec (map snd shares) w
               <= count_occ Z.eq_dec (map snd shares) v)%nat.
Proof.
  intros Hn Hne.
  assert (Hlen : 1 <= Z.of_nat (length shares)).
  { destruct shares; [congruence|simpl length; lia]. }
  destruct (solve_secret shares n 1) as [v|e] eqn:E.
  - exists v. split; [reflexivity|]. split.
    + apply solve_secret_ok in E. destruct E as (count & Hin & _).
      assert (Hkey : In v (map fst (tally shares (Z.to_nat 1)))).
      { apply in_map_iff. now exists (v, count). }
      apply fold_cast_vote_keys in Hkey.
      destruct Hkey as [[]|(combo & Hc & El)].
      change (Z.to_nat 1) with 1%nat in Hc. rewrite combinations_one in Hc.
      apply in_map_iff in Hc. destruct Hc as (p & <- & Hp).
      rewrite lagrange_single in El. injection El as <-.
      now apply in_map.
    + intros w. pose proof (solve_secret_counts _ _ _ _ E w) as H.
      rewrite !tally_votes in H. change (Z.to_nat 1) with 1%nat in H.
      rewrite !votes_one in H. lia.
  - exfalso. rewrite solve_secret_checked in E by lia.
    destruct (tally shares (Z.to_nat 1)) eqn:Et; [|discriminate].
    unfold tally in Et. rewrite fold_cast_vote_successes in Et.
    apply fold_incr_nil in Et. destruct Et as [Es _].
    change (Z.to_nat 1) with 1%nat in Es. rewrite combinations_one in Es.
    destruct shares as [|p shares]; [congruence|].
    simpl in Es. rewrite lagrange_single in Es. discriminate.
Qed.

Lemma solve_secret_threshold_one_witness :
  1 <= 4 /\ [(1, 7); (2, 9); (3, 9)] <> [] /\
  exists v, solve_secret [(1, 7); (2, 9); (3, 9)] 4 1 = Ok v /\
    In v (map snd [(1, 7); (2, 9); (3, 9)]) /\
    forall w, (count_occ Z.eq_dec (map snd [(1, 7); (2, 9); (3, 9)]%Z) w
               <= count_occ Z.eq_dec (map snd [(1, 7); (2, 9); (3, 9)]%Z) v)%nat.
Proof.
  assert (Hn : 1 <= 4) by discriminate.
  assert (Hne : [(1, 7); (2, 9); (3, 9)] <> []) by discriminate.
  split; [exact Hn|]. split; [exact Hne|].
  exact (solve_secret_threshold_one [(1, 7); (2, 9); (3, 9)] 4 Hn Hne).
Defined.

(** X17. When [k] is the number of shares there is a single subset, the
    whole list: the reconstruction returns what the interpolator returns on
    it, and fails with NoConsistentSecret when the interpolator raises. *)
Theorem solve_secret_all_shares (shares : list point) (n : Z) :
  1 <= Z.of_nat (length shares) <= n ->
  solve_secret shares n (Z.of_nat (length shares))
  = match lagrange_constant_term shares with
    | Ok v => Ok v
    | Raise _ => Raise NoConsistentSecret
    end.
Proof.
  intros Hk. rewrite solve_secret_checked by lia.
  rewrite Nat2Z.id. unfold tally. rewrite combinations_all. simpl.
  unfold cast_vote. now destruct (lagrange_constant_term shares).
Qed.

Lemma solve_secret_all_shares_witness :
  1 <= Z.of_nat (length [(1, 300); (2, 250); (3, 60)]) <= 3 /\
  solve_secret [(1, 300); (2, 250); (3, 60)] 3 3 = Ok 210.
Proof.
  assert (Hk : 1 <= Z.of_nat (length [(1, 300); (2, 250); (3, 60)]) <= 3)
    by (split; discriminate).
  split; [exact Hk|].
  exact (solve_secret_all_shares [(1, 300); (2, 250); (3, 60)] 3 Hk).
Defined.

(** X18. The reconstruction raises InvalidParameters exactly when [k] is
    outside [1, n], whatever the shares, InsufficientShares exactly when
    [k] is inside but exceeds the number of shares, and otherwise only
    NoConsistentSecret: no error of the interpolator and no index error
    ever comes out of it. *)
Theorem solve_secret_outcomes (shares : list point) (n k : Z) :
  (solve_secret shares n k = Raise InvalidParameters <-> ~ 1 <= k <= n) /\
  (solve_secret shares n k = Raise InsufficientShares <->
   1 <= k <= n /\ Z.of_nat (length shares) < k) /\
  (forall e, solve_secret shares n k = Raise e ->
     e = InvalidParameters \/ e = InsufficientShares \/ e = NoConsistentSecret).
Proof.
  destruct (Z.le_gt_cases 1 k) as [H1|H1];
    [destruct (Z.le_gt_cases k n) as [H2|H2]|].
  - destruct (Z.le_gt_cases k (Z.of_nat (length shares))) as [H3|H3].
    + rewrite solve_secret_checked by lia.
      destruct (tally shares (Z.to_nat k)).
      * repeat split; try discriminate; try lia.
        intros e [= <-]. auto.
      * repeat split; try discriminate; lia.
    + assert (E : solve_secret shares n k = Raise InsufficientShares).
      { unfold solve_secret.
        destruct (Z.leb_spec 1 k); [|lia]. destruct (Z.leb_spec k n); [|lia].
        simpl. destruct (Z.ltb_spec (Z.of_nat (length shares)) k); [reflexivity|lia]. }
      rewrite E. repeat split; try discriminate; try lia.
      intros e [= <-]. auto.
  - assert (E : solve_secret shares n k = Raise InvalidParameters).
    { unfold solve_secret.
      destruct (Z.leb_spec 1 k); [|lia]. destruct (Z.leb_spec k n); [lia|].
      reflexivity. }
    rewrite E. repeat split; try discriminate; try lia.
    intros e [= <-]. auto.
  - assert (E : solve_secret shares n k = Raise InvalidParameters).
    { unfold solve_secret. destruct (Z.leb_spec 1 k); [lia|]. reflexivity. }
    rewrite E. repeat split; try discriminate; try lia.
    intros e [= <-]. auto.
Qed.

(** ** The interpolator does not depend on the order of the points *)

Lemma length_picks (A : Type) (l : list A) : length (picks l) = length l.
Proof. induction l as [|a l IH]; simpl; [|rewrite length_map, IH]; reflexivity. Qed.

Lemma map_seq_nth (A B : Type) (g : A -> B) (l : list A) (d : A) :
  map (fun m => g (nth m l d)) (seq 0 (length l)) = map g l.
Proof.
  induction l as [|a l IH]; simpl; [reflexivity|].
  rewrite <- seq_shift, map_map. now rewrite IH.
Qed.

Lemma others_S_0 n : others (S n) 0 = seq 1 n.
Proof.
  unfold others. simpl.
  rewrite (proj2 (filter_ext_in_iff _ (fun _ => true) (seq 1 n))).
  - apply filter_true.
  - intros m Hm. apply in_seq in Hm. destruct m; [lia|reflexivity].
Qed.

Lemma others_S_S n j : others (S n) (S j) = 0%nat :: map S (others n j).
Proof.
  unfold others. simpl. rewrite <- seq_shift, filter_map_swap. reflexivity.
Qed.

Lemma numerator_cons_0 p points :
  numerator (p :: points) 0 = prodZ (map (fun q => - fst q) points).
Proof.
  unfold numerator. cbn [length]. rewrite others_S_0, <- seq_shift, map_map.
  f_equal. apply (map_seq_nth _ _ (fun q => - fst q) points (0, 0)).
Qed.

Lemma denominator_cons_0 p points :
  denominator (p :: points) 0 = prodZ (map (fun q => fst p - fst q) points).
Proof.
  unfold denominator. cbn [length]. rewrite others_S_0, <- seq_shift, map_map.
  f_equal. apply (map_seq_nth _ _ (fun q => fst p - fst q) points (0, 0)).
Qed.

Lemma numerator_cons_S p points j :
  numerator (p :: points) (S j) = - fst p * numerator points j.
Proof.
  unfold numerator. cbn [length]. rewrite others_S_S. cbn [map prodZ fold_right].
  now rewrite map_map.
Qed.

Lemma denominator_cons_S p points j :
  denominator (p :: points) (S j)
  = (x_at points j - fst p) * denominator points j.
Proof.
  unfold denominator. cbn [length]. rewrite others_S_S. cbn [map prodZ fold_right].
  now rewrite map_map.
Qed.

(** The pick at position [j] is the point at position [j], and its products
    are those of the loop. *)
Lemma picks_nth points j :
  (j < length points)%nat ->
  let pick := nth j (picks points) ((0, 0), []) in
  fst pick = nth j points (0, 0) /\
  pick_numerator pick = numerator points j /\
  pick_denominator pick = denominator points j.
Proof.
  revert j. induction points as [|p points IH]; intros j Hj; [simpl in Hj; lia|].
  destruct j as [|j].
  - simpl. split; [reflexivity|]. split.
    + now rewrite numerator_cons_0.
    + now rewrite denominator_cons_0.
  - assert (Hj' : (j < length points)%nat) by (simpl in Hj; lia).
    destruct (IH j Hj') as (H1 & H2 & H3).
    cbn [picks nth].
    rewrite (nth_indep _ ((0, 0), []) ((0, 0), [p]))
      by now rewrite length_map, length_picks.
    change ((0, 0), [p])
      with ((fun pick : (Z * Z) * list (Z * Z) => (fst pick, p :: snd pick))
              ((0, 0), [])).
    rewrite map_nth. cbn [fst snd].
    split; [exact H1|]. split.
    + rewrite numerator_cons_S, <- H2. reflexivity.
    + rewrite denominator_cons_S, <- H3. unfold pick_denominator.
      cbn [fst snd map prodZ fold_right]. unfold x_at, point in *.
      rewrite <- H1. reflexivity.
Qed.

Lemma lagrange_formula_picks points :
  lagrange_formula points = sumZ (map pick_term (picks points)).
Proof.
  unfold lagrange_formula.
  rewrite <- (map_seq_nth _ _ pick_term (picks points) ((0, 0), [])).
  rewrite length_picks. f_equal. apply map_ext_in. intros j Hj.
  apply in_seq in Hj.
  destruct (picks_nth points j) as (H1 & H2 & H3); [unfold point in *; lia|].
  unfold pick_term, y_at, point in *. now rewrite H1, H2, H3.
Qed.

Lemma exact_picks points :
  (forall j, (j < length points)%nat -> exact points j = true) <->
  Forall (fun pick => pick_numerator pick mod pick_denominator pick = 0)
         (picks points).
Proof.
  rewrite Forall_nth, length_picks. split.
  - intros H j d Hj. rewrite (nth_indep _ d ((0, 0), [])) by now rewrite length_picks.
    destruct (picks_nth points j Hj) as (_ & H2 & H3).
    unfold point in *. rewrite H2, H3.
    apply Z.eqb_eq. now apply H.
  - intros H j Hj. apply Z.eqb_eq.
    destruct (picks_nth points j Hj) as (_ & H2 & H3).
    unfold exact, point in *. rewrite <- H2, <- H3. now apply H.
Qed.

Lemma same_pick_map (p : point) picks1 picks2 :
  PermutationA same_pick picks1 picks2 ->
  PermutationA same_pick
    (map (fun pick => (fst pick, p :: snd pick)) picks1)
    (map (fun pick => (fst pick, p :: snd pick)) picks2).
Proof.
  induction 1 as [|a b l1 l2 [Hf Hs] _ IH|a b l|l1 l2 l3 _ IH1 _ IH2]; simpl.
  - constructor.
  - apply permA_skip; [|exact IH]. split; simpl; [assumption|now constructor].
  - apply permA_swap.
  - now apply permA_trans with (2 := IH2).
Qed.

Lemma same_pick_refl picks1 : PermutationA same_pick picks1 picks1.
Proof.
  induction picks1 as [|a l IH]; constructor; [|exact IH].
  split; [reflexivity|apply Permutation_refl].
Qed.

Lemma picks_Permutation (l l' : list point) :
  Permutation l l' -> PermutationA same_pick (picks l) (picks l').
Proof.
  induction 1 as [|x l l' HP IH|x y l|l l' l'' _ IH1 _ IH2].
  - constructor.
  - cbn [picks]. apply permA_skip.
    + split; [reflexivity|exact HP].
    + now apply same_pick_map.
  - cbn [picks map fst snd].
    eapply permA_trans; [apply permA_swap|].
    apply permA_skip; [split; [reflexivity|apply Permutation_refl]|].
    apply permA_skip; [split; [reflexivity|apply Permutation_refl]|].
    rewrite !map_map. cbn [fst snd].
    induction (picks l) as [|a picks1 IHp]; simpl; constructor; [|exact IHp].
    split; [reflexivity|apply perm_swap].
  - now apply permA_trans with (2 := IH2).
Qed.

Lemma same_pick_products a b :
  same_pick a b ->
  pick_numerator a = pick_numerator b /\
  pick_denominator a = pick_denominator b /\ pick_term a = pick_term b.
Proof.
  intros [Hf Hs].
  assert (Hn : pick_numerator a = pick_numerator b).
  { unfold pick_numerator. now apply prodZ_Permutation, Permutation_map. }
  assert (Hd : pick_denominator a = pick_denominator b).
  { unfold pick_denominator. rewrite Hf.
    now apply prodZ_Permutation, Permutation_map. }
  split; [exact Hn|]. split; [exact Hd|].
  unfold pick_term. now rewrite Hn, Hd, Hf.
Qed.

Lemma same_pick_sum picks1 picks2 :
  PermutationA same_pick picks1 picks2 ->
  sumZ (map pick_term picks1) = sumZ (map pick_term picks2).
Proof.
  induction 1 as [|a b l1 l2 Hab _ IH|a b l|l1 l2 l3 _ IH1 _ IH2]; simpl.
  - reflexivity.
  - destruct (same_pick_products _ _ Hab) as (_ & _ & ->). now rewrite IH.
  - ring.
  - now rewrite IH1.
Qed.

Lemma same_pick_exact picks1 picks2 :
  PermutationA same_pick picks1 picks2 ->
  Forall (fun pick => pick_numerator pick mod pick_denominator pick = 0) picks1 ->
  Forall (fun pick => pick_numerator pick mod pick_denominator pick = 0) picks2.
Proof.
  induction 1 as [|a b l1 l2 Hab _ IH|a b l|l1 l2 l3 _ IH1 _ IH2]; intros H.
  - constructor.
  - inversion H; subst. destruct (same_pick_products _ _ Hab) as (Hn & Hd & _).
    constructor; [rewrite <- Hn, <- Hd; assumption|auto].
  - inversion H as [|? ? Hb H']; subst. inversion H'; subst.
    repeat constructor; assumption.
  - auto.
Qed.

Lemma lagrange_Permutation points points' v :
  Permutation points points' ->
  lagrange_constant_term points = Ok v ->
  lagrange_constant_term points' = Ok v.
Proof.
  intros HP H. apply lagrange_ok in H. destruct H as [H ->].
  apply lagrange_ok. split.
  - assert (Hc : forall j, (j < length points')%nat -> clash points' j = false).
    { apply no_clash_NoDup.
      apply (Permutation_NoDup (Permutation_map fst HP)).
      apply no_clash_NoDup. intros j Hj. now apply H. }
    assert (He : forall j, (j < length points')%nat -> exact points' j = true).
    { apply exact_picks.
      apply (same_pick_exact _ _ (picks_Permutation _ _ HP)).
      apply exact_picks. intros j Hj. now apply H. }
    auto.
  - rewrite !lagrange_formula_picks.
    apply same_pick_sum, picks_Permutation. exact HP.
Qed.

(** X19. The interpolator does not depend on the order of the points: on
    two lists holding the same points it returns the same value, or fails
    on both. *)
Theorem lagrange_constant_term_order_independent
    (points points' : list point) (v : Z) :
  Permutation points points' ->
  (lagrange_constant_term points = Ok v <->
   lagrange_constant_term points' = Ok v).
Proof.
  intros HP. split; apply lagrange_Permutation;
    [exact HP|apply Permutation_sym, HP].
Qed.

Lemma lagrange_constant_term_order_independent_witness :
  Permutation [(1, 300); (2, 250); (3, 60)] [(2, 250); (1, 300); (3, 60)] /\
  lagrange_constant_term [(2, 250); (1, 300); (3, 60)] = Ok 210.
Proof.
  assert (HP : Permutation [(1, 300); (2, 250); (3, 60)]
                           [(2, 250); (1, 300); (3, 60)]) by apply perm_swap.
  split; [exact HP|].
  exact (proj1 (lagrange_constant_term_order_independent _ _ 210 HP) eq_refl).
Defined.

(** ** The consensus phase: pluralities and corrupted values *)

(** X20. A candidate with strictly more votes than every other value is the
    one returned, in whatever order the subsets are enumerated. *)
Theorem solve_secret_strict_plurality (shares : list point) (n k v : Z) :
  1 <= k <= n -> k <= Z.of_nat (length shares) ->
  (forall w, w <> v ->
             votes shares (Z.to_nat k) w < votes shares (Z.to_nat k) v) ->
  solve_secret shares n k = Ok v.
Proof.
  intros Hk Hlen Hv.
  destruct (solve_secret shares n k) as [u|e] eqn:E.
  - f_equal. destruct (Z.eq_dec u v) as [|Hne]; [assumption|].
    pose proof (solve_secret_counts _ _ _ _ E v) as H.
    rewrite !tally_votes in H. specialize (Hv u Hne). lia.
  - exfalso. rewrite solve_secret_checked in E by assumption.
    destruct (tally shares (Z.to_nat k)) eqn:Et; [|discriminate].
    pose proof (tally_votes shares (Z.to_nat k) v) as H0.
    rewrite Et in H0. simpl in H0.
    assert (Hw : v + 1 <> v) by lia. specialize (Hv (v + 1) Hw).
    unfold votes in *. lia.
Qed.

Lemma solve_secret_strict_plurality_witness :
  1 <= 1 <= 3 /\ 1 <= Z.of_nat (length [(1, 7); (2, 9); (3, 9)]) /\
  solve_secret [(1, 7); (2, 9); (3, 9)] 3 1 = Ok 9.
Proof.
  assert (Hk : 1 <= 1 <= 3) by (split; discriminate).
  assert (Hlen : 1 <= Z.of_nat (length [(1, 7); (2, 9); (3, 9)])) by discriminate.
  split; [exact Hk|]. split; [exact Hlen|].
  apply (solve_secret_strict_plurality [(1, 7); (2, 9); (3, 9)] 3 1 9 Hk Hlen).
  intros w Hw. change (Z.to_nat 1) with 1%nat. rewrite !votes_one.
  cbn [map snd count_occ].
  destruct (Z.eq_dec 7 9); [discriminate|].
  destruct (Z.eq_dec 9 9); [|congruence].
  destruct (Z.eq_dec 7 w); destruct (Z.eq_dec 9 w); lia.
Defined.

Lemma lagrange_raise_same_x (points points' : list point) (e : error) :
  map fst points = map fst points' ->
  lagrange_constant_term points = Raise e ->
  lagrange_constant_term points' = Raise e.
Proof.
  intros Hx H. unfold lagrange_constant_term in *.
  rewrite <- (same_x_length _ _ Hx).
  apply (same_x_term_loop_raise _ _ Hx _ 0 0 e (seq_below _) H).
Qed.

Lemma combinations_same_x (l l' : list point) k :
  map fst l = map fst l' ->
  Forall2 (fun c c' => map fst c = map fst c')
          (combinations l k) (combinations l' k).
Proof.
  revert l' k. induction l as [|p l IH]; intros [|p' l'] k Hx;
    try discriminate Hx.
  - destruct k; repeat constructor.
  - injection Hx as Hp Hx. destruct k as [|k]; simpl; [repeat constructor|].
    apply Forall2_app; [|now apply IH].
    specialize (IH l' k Hx).
    induction IH as [|c c' cs cs' Hc _ IHc]; simpl; constructor; [|exact IHc].
    simpl. now rewrite Hp, Hc.
Qed.

Lemma successes_nil_same_x combos combos' :
  Forall2 (fun c c' : list point => map fst c = map fst c') combos combos' ->
  successes combos = [] -> successes combos' = [].
Proof.
  induction 1 as [|c c' cs cs' Hc _ IH]; simpl; [reflexivity|].
  destruct (lagrange_constant_term c) as [v|e] eqn:E; [discriminate|].
  rewrite (lagrange_raise_same_x _ _ _ Hc E). simpl. exact IH.
Qed.

Lemma solve_secret_raise_same_x (shares shares' : list point) (n k : Z) e :
  map fst shares = map fst shares' ->
  solve_secret shares n k = Raise e -> solve_secret shares' n k = Raise e.
Proof.
  intros Hx. unfold solve_secret. rewrite <- (same_x_length _ _ Hx).
  destruct (negb _); [trivial|]. destruct (_ <? _); [trivial|]. cbn zeta.
  destruct (tally shares (Z.to_nat k)) as [|item rest] eqn:Et.
  - intros [= <-].
    unfold tally in Et. rewrite fold_cast_vote_successes in Et.
    apply fold_incr_nil in Et. destruct Et as [Es _].
    apply (successes_nil_same_x _ _ (combinations_same_x _ _ _ Hx)) in Es.
    unfold tally. rewrite fold_cast_vote_successes, Es. reflexivity.
  - simpl. destruct (max_by_count item rest). discriminate.
Qed.

(** X21. Whether the reconstruction fails, and how, depends on [n], [k] and
    the x-coordinates of the shares alone: changing y-coordinates, however
    many, never turns a result into a failure nor a failure into a
    result. *)
Theorem solve_secret_failure_by_abscissas
    (shares shares' : list point) (n k : Z) (e : error) :
  map fst shares = map fst shares' ->
  (solve_secret shares n k = Raise e <-> solve_secret shares' n k = Raise e).
Proof.
  intros Hx. split; apply solve_secret_raise_same_x; [exact Hx|exact (eq_sym Hx)].
Qed.

Lemma solve_secret_failure_by_abscissas_witness :
  map fst [(1, 5); (3, 5)] = map fst [(1, 0); (3, 99)] /\
  solve_secret [(1, 5); (3, 5)] 2 2 = Raise NoConsistentSecret /\
  solve_secret [(1, 0); (3, 99)] 2 2 = Raise NoConsistentSecret.
Proof.
  split; [reflexivity|]. split; [reflexivity|].
  exact (proj1 (solve_secret_failure_by_abscissas
                  [(1, 5); (3, 5)] [(1, 0); (3, 99)] 2 2 NoConsistentSecret
                  eq_refl) eq_refl).
Defined.

(** ** The tie-break *)

(** [max] returns the first item of largest count: the items before it have
    strictly smaller counts. *)
Lemma max_by_count_first best items :
  exists before after,
    best :: items = before ++ max_by_count best items :: after /\
    forall item, In item before -> snd item < snd (max_by_count best items).
Proof.
  revert best. induction items as [|it rest IH]; intros best.
  - exists [], []. split; [reflexivity|]. intros item [].
  - cbn [max_by_count]. destruct (Z.ltb_spec (snd best) (snd it)) as [Hlt|Hge].
    + destruct (IH it) as (before & after & E & Hb).
      exists (best :: before), after. split; [simpl; now rewrite E|].
      intros item [<-|Hin]; [|auto].
      pose proof (max_by_count_seed it rest). lia.
    + destruct (IH best) as (before & after & E & Hb).
      destruct before as [|b before].
      * injection E as E1 E2. exists [], (it :: rest).
        split; [simpl; now rewrite <- E1|]. intros item [].
      * injection E as <- E2. exists (best :: it :: before), after.
        split; [simpl; now rewrite <- E2|].
        assert (Hbest : snd best < snd (max_by_count best rest))
          by (apply Hb; now left).
        intros item [<-|[<-|Hin]]; [assumption|lia|].
        apply Hb. now right.
Qed.

(** The loop only adds keys at the end. *)
Lemma counter_incr_keys_prefix key c :
  exists extra, map fst (counter_incr key c) = map fst c ++ extra.
Proof.
  induction c as [|[key' count] c [extra IH]]; simpl.
  - now exists [key].
  - destruct (key' =? key); simpl.
    + exists []. now rewrite app_nil_r.
    + exists extra. now rewrite IH.
Qed.

Lemma fold_incr_keys_prefix vs c :
  exists extra,
    map fst (fold_left (fun c v => counter_incr v c) vs c) = map fst c ++ extra.
Proof.
  revert c. induction vs as [|v vs IH]; intros c; simpl.
  - exists []. now rewrite app_nil_r.
  - destruct (IH (counter_incr v c)) as [extra E].
    destruct (counter_incr_keys_prefix v c) as [extra' E'].
    exists (extra' ++ extra). now rewrite E, E', app_assoc.
Qed.

Lemma prefix_before (A : Type) (a b e c : list A) (v : A) :
  a ++ e = b ++ v :: c -> ~ In v a -> exists b', b = a ++ b'.
Proof.
  revert b. induction a as [|x a IH]; intros b E Hv.
  - now exists b.
  - destruct b as [|y b]; simpl in E.
    + injection E as -> _. exfalso. apply Hv. now left.
    + injection E as -> E. destruct (IH b E) as [b' ->].
      * intros H. apply Hv. now right.
      * now exists b'.
Qed.

(** A key that the counter did not hold at first stands, at the end, after
    every value that was counted before it first was. *)
Lemma fold_incr_first_vote vs c v before count after :
  fold_left (fun c v => counter_incr v c) vs c = before ++ (v, count) :: after ->
  ~ In v (map fst c) ->
  exists pre post, vs = pre ++ v :: post /\ ~ In v pre /\
    forall w, In w pre -> In w (map fst before).
Proof.
  revert c. induction vs as [|u vs IH]; intros c E Hv.
  - simpl in E. exfalso. apply Hv. rewrite E, map_app, in_app_iff.
    right. now left.
  - destruct (Z.eq_dec u v) as [->|Hne].
    + exists [], vs. split; [reflexivity|]. split; [tauto|]. intros w [].
    + cbn [fold_left] in E.
      assert (Hv' : ~ In v (map fst (counter_incr u c))).
      { rewrite counter_incr_keys. intros [H|H]; [congruence|contradiction]. }
      destruct (IH _ E Hv') as (pre & post & -> & Hpre & Hw).
      exists (u :: pre), post. split; [reflexivity|]. split.
      * intros [H|H]; [congruence|contradiction].
      * intros w [<-|Hin]; [|auto].
        destruct (fold_incr_keys_prefix (pre ++ v :: post) (counter_incr u c))
          as [extra Ek].
        rewrite E, map_app in Ek. cbn [map fst] in Ek. symmetry in Ek.
        destruct (prefix_before _ _ _ _ _ _ Ek Hv') as [b' ->].
        apply in_or_app. left. apply counter_incr_keys. now left.
Qed.

(** X22. The tie-break: among the values returned on the subsets in the
    order of their enumeration, every value that occurs before the first
    occurrence of the winner has strictly fewer votes than the winner. With
    C3, the winner is the candidate of largest count that was voted for
    first. *)
Theorem solve_secret_tie_break (shares : list point) (n k v : Z) :
  solve_secret shares n k = Ok v ->
  exists pre post,
    successes (combinations shares (Z.to_nat k)) = pre ++ v :: post /\
    ~ In v pre /\
    forall w, In w pre ->
              votes shares (Z.to_nat k) w < votes shares (Z.to_nat k) v.
Proof.
  unfold solve_secret.
  destruct (negb _); [discriminate|]. destruct (_ <? _); [discriminate|].
  cbn zeta. destruct (tally shares (Z.to_nat k)) as [|item rest] eqn:Et;
    [discriminate|].
  cbn [most_common_1].
  destruct (max_by_count_first item rest) as (before & after & E & Hb).
  destruct (max_by_count item rest) as [u count]. intros [= ->].
  assert (Hnd : NoDup (map fst (tally shares (Z.to_nat k)))).
  { apply fold_cast_vote_NoDup. constructor. }
  rewrite <- Et in E.
  assert (Ef : fold_left (fun c v => counter_incr v c)
                 (successes (combinations shares (Z.to_nat k))) []
               = before ++ (v, count) :: after).
  { rewrite <- E. unfold tally. now rewrite fold_cast_vote_successes. }
  destruct (fold_incr_first_vote _ _ _ _ _ _ Ef) as (pre & post & Es & Hpre & Hw);
    [simpl; tauto|].
  exists pre, post. split; [assumption|]. split; [assumption|].
  intros w Hin. apply Hw in Hin. apply in_map_iff in Hin.
  destruct Hin as ([w' cw] & Ew & Hin). simpl in Ew. subst w'.
  rewrite <- !tally_votes.
  rewrite (counter_get_in w cw _ Hnd), (counter_get_in v count _ Hnd).
  - apply (Hb (w, cw) Hin).
  - rewrite E. apply in_or_app. right. now left.
  - rewrite E. apply in_or_app. now left.
Qed.

Lemma solve_secret_tie_break_witness :
  solve_secret [(10, 25); (20, 45); (30, 120)] 3 2 = Ok 5 /\
  exists pre post,
    successes (combinations [(10, 25); (20, 45); (30, 120)] (Z.to_nat 2))
    = pre ++ 5 :: post /\
    ~ In 5 pre /\
    forall w, In w pre ->
              votes [(10, 25); (20, 45); (30, 120)] (Z.to_nat 2) w
              < votes [(10, 25); (20, 45); (30, 120)] (Z.to_nat 2) 5.
Proof.
  split; [reflexivity|].
  exact (solve_secret_tie_break [(10, 25); (20, 45); (30, 120)] 3 2 5 eq_refl).
Defined.
